(** * SchemaLoader: dynamic loading of Cap'n Proto struct schemas

    A shallow embedding of [src/serialization/schema-loader.ts] and the
    properties of its registry, field extraction, accessor synthesis and
    plain-object projection. *)

From Stdlib Require Import ZArith List String Ascii Bool Lia.
From Stdlib Require Import Permutation Sorted.
From Stdlib Require Import DecimalString HexadecimalString DecimalZ HexadecimalZ.
Import ListNotations.

Local Open Scope string_scope.
Local Open Scope list_scope.
Local Open Scope Z_scope.

(* ================================================================== *)
(** * JavaScript values, exceptions and containers *)
(* ================================================================== *)

Module JS.

(** The values a field read can produce.  [VNumber] is an integer-valued
    number, [VDouble] a number given by its IEEE-754 bit pattern (what the
    float readers produce), [VObject] an opaque object handle (a Pointer,
    a Uint8Array, a Segment, ...), [VFunction] a callable. *)
Inductive Value : Type :=
| VUndefined
| VNull
| VBool (b : bool)
| VNumber (n : Z)
| VDouble (bits : Z)
| VBigInt (n : Z)
| VString (s : string)
| VObject (handle : Z)
| VFunction (fname : string).

(** [typeof value === "function"] *)
Definition is_function (v : Value) : bool :=
  match v with VFunction _ => true | _ => false end.

(** [value === undefined] *)
Definition is_undefined (v : Value) : bool :=
  match v with VUndefined => true | _ => false end.

(** What the loader and the layers below it throw. *)
Inductive Exn : Type :=
| NotAStructError (displayName : string) (id : Z)
    (* Error(`Node ${displayName} (${id}) is not a struct`) *)
| SchemaNotFoundError (id : Z)
    (* Error(`Schema with ID ${id} not found. Did you call loadDynamic()?`) *)
| RangeError          (* a bounds check of the wire layer failed *)
| TypeError           (* a setter was handed a value outside its TypeScript type *)
| ExternalError (code : Z).  (* anything else the pointer layer throws *)

Inductive Result (A : Type) : Type :=
| Ok (a : A)
| Throw (e : Exn).
Arguments Ok {A} a.
Arguments Throw {A} e.

Definition rmap {A B} (f : A -> B) (r : Result A) : Result B :=
  match r with Ok a => Ok (f a) | Throw e => Throw e end.

(** ** Strings *)

(** [s.split(":")]: the pieces of [s] between colons; never empty. *)
Fixpoint split_colon (s : string) : list string :=
  match s with
  | EmptyString => [EmptyString]
  | String c rest =>
      if Ascii.eqb c ":"%char then EmptyString :: split_colon rest
      else match split_colon rest with
           | p :: ps => String c p :: ps
           | [] => [String c EmptyString]
           end
  end.

(** [parts[i]] on an array of strings: [None] is [undefined]. *)
Definition index {A} (parts : list A) (i : Z) : option A :=
  if i <? 0 then None else nth_error parts (Z.to_nat i).

(** [a || b] on a possibly undefined string: the empty string and
    [undefined] are the falsy cases. *)
Definition or_else (a : option string) (b : string) : string :=
  match a with
  | Some EmptyString | None => b
  | Some s => s
  end.

(** [id.toString()] on a bigint. *)
Definition bigint_toString (n : Z) : string :=
  DecimalString.NilZero.string_of_int (Z.to_int n).

(** [id.toString(16)] on a bigint. *)
Definition bigint_toString16 (n : Z) : string :=
  HexadecimalString.NilZero.string_of_int (Z.to_hex_int n).

(** ** Insertion-ordered tables

    A [Map<string, V>] and the own properties of an object keep their keys
    in insertion order; writing an existing key replaces its value in
    place. A table lists the entries in that order; the order in which an
    object's keys are enumerated is [own_key_order] below. *)
Definition Table (V : Type) : Type := list (string * V).

Fixpoint table_get {V} (t : Table V) (key : string) : option V :=
  match t with
  | [] => None
  | (k, v) :: rest => if String.eqb k key then Some v else table_get rest key
  end.

Fixpoint table_update {V} (t : Table V) (key : string) (f : option V -> V) : Table V :=
  match t with
  | [] => [(key, f None)]
  | (k, v) :: rest =>
      if String.eqb k key then (k, f (Some v)) :: rest
      else (k, v) :: table_update rest key f
  end.

Definition table_set {V} (t : Table V) (key : string) (v : V) : Table V :=
  table_update t key (fun _ => v).

Definition table_keys {V} (t : Table V) : list string := map fst t.
Definition table_values {V} (t : Table V) : list V := map snd t.

(** ** The order of own property keys

    An object enumerates its string keys with the array indices first, in
    ascending numeric order, and the other keys after them in insertion
    order. An array index is the canonical decimal numeral of an integer
    from 0 to 2^32 - 2 ("0", "7", "42"; not "", "07", "-1" or "1.0"). *)
Definition digit_value (c : ascii) : option Z :=
  let n := Z.of_nat (nat_of_ascii c) - 48 in
  if (0 <=? n) && (n <=? 9) then Some n else None.

Fixpoint parse_digits (acc : Z) (s : string) : option Z :=
  match s with
  | EmptyString => Some acc
  | String c rest =>
      match digit_value c with
      | Some d => parse_digits (10 * acc + d) rest
      | None => None
      end
  end.

Definition array_index (key : string) : option Z :=
  match parse_digits 0 key with
  | Some n =>
      if String.eqb (bigint_toString n) key && (n <? 2 ^ 32 - 1)
      then Some n else None
  | None => None
  end.

Definition is_array_index (key : string) : bool :=
  match array_index key with Some _ => true | None => false end.

Definition index_value (key : string) : Z :=
  match array_index key with Some n => n | None => 0 end.

Fixpoint insert_by_index (key : string) (sorted : list string) : list string :=
  match sorted with
  | [] => [key]
  | k :: rest =>
      if index_value key <=? index_value k then key :: sorted
      else k :: insert_by_index key rest
  end.

Definition sort_by_index (keys : list string) : list string :=
  fold_right insert_by_index [] keys.


(** The enumeration order of own keys held in insertion order. *)
Definition own_key_order (keys : list string) : list string :=
  sort_by_index (filter is_array_index keys)
    ++ filter (fun key => negb (is_array_index key)) keys.

(** [obj[key] = value] on a plain object: the own property is created or
    overwritten, except for the key ["__proto__"]. That key is an accessor
    inherited from [Object.prototype]: writing it calls the inherited
    setter, which swaps the object's prototype (for an object or null) or
    does nothing (for any other value) and in no case creates an own
    property. *)
Definition plain_assign (obj : Table Value) (key : string) (value : Value)
  : Table Value :=
  if String.eqb key "__proto__" then obj else table_set obj key value.

End JS.
Import JS.

(* ================================================================== *)
(** * The schema description the loader consumes (capnp/schema) *)
(* ================================================================== *)

Module Schema.

(** The members of the [Type] union that the loader names. *)
Inductive WireType : Type :=
| VOID | BOOL | INT8 | INT16 | INT32 | INT64
| UINT8 | UINT16 | UINT32 | UINT64 | FLOAT32 | FLOAT64
| TEXT | DATA | LIST | ENUM | STRUCT | INTERFACE | ANY_POINTER.

Definition all_wire_types : list WireType :=
  [VOID; BOOL; INT8; INT16; INT32; INT64; UINT8; UINT16; UINT32; UINT64;
   FLOAT32; FLOAT64; TEXT; DATA; LIST; ENUM; STRUCT; INTERFACE; ANY_POINTER].

Definition WireType_eqb (a b : WireType) : bool :=
  match a, b with
  | VOID, VOID | BOOL, BOOL | INT8, INT8 | INT16, INT16 | INT32, INT32
  | INT64, INT64 | UINT8, UINT8 | UINT16, UINT16 | UINT32, UINT32
  | UINT64, UINT64 | FLOAT32, FLOAT32 | FLOAT64, FLOAT64 | TEXT, TEXT
  | DATA, DATA | LIST, LIST | ENUM, ENUM | STRUCT, STRUCT
  | INTERFACE, INTERFACE | ANY_POINTER, ANY_POINTER => true
  | _, _ => false
  end.

(** The numbers behind [Type.VOID] ... [Type.ANY_POINTER].  They are
    declared in capnp/schema, which is not part of the loader's source, so
    the loader is modelled over any numbering; the properties that compare
    two named tags assume the numbering is injective. *)
Class TypeTags : Type := { Type_tag : WireType -> Z }.

Definition tags_injective (tags : TypeTags) : Prop :=
  forall a b : WireType, Type_tag a = Type_tag b -> a = b.

(** A [typeWhich] that none of the named tags equals. *)
Definition unknown_tag {tags : TypeTags} (typeWhich : Z) : Prop :=
  forall w : WireType, typeWhich <> Type_tag w.

(** The ordinals of the [Type] union in schema.capnp. *)
Definition schema_capnp_tags : TypeTags :=
  {| Type_tag := fun w =>
       match w with
       | VOID => 0 | BOOL => 1 | INT8 => 2 | INT16 => 3 | INT32 => 4
       | INT64 => 5 | UINT8 => 6 | UINT16 => 7 | UINT32 => 8 | UINT64 => 9
       | FLOAT32 => 10 | FLOAT64 => 11 | TEXT => 12 | DATA => 13
       | LIST => 14 | ENUM => 15 | STRUCT => 16 | INTERFACE => 17
       | ANY_POINTER => 18
       end |}.

(** What [parseFields] reads of a [Type]: its discriminant [which()],
    [struct.typeId], and the discriminant of [list.elementType]. *)
Record Type_ : Type := {
  Type_which : Z;
  Type_struct_typeId : Z;
  Type_list_elementType_which : Z
}.

Record Field_Slot : Type := {
  Slot_offset : Z;     (* uint32 *)
  Slot_type : Type_
}.

Inductive Field_Which : Type :=
| Field_slot (slot : Field_Slot)
| Field_group (typeId : Z).

Record Field : Type := {
  Field_name : string;
  Field_which : Field_Which
}.

(** [field._isSlot] *)
Definition Field_isSlot (f : Field) : bool :=
  match Field_which f with Field_slot _ => true | Field_group _ => false end.

Record Node_Struct : Type := {
  dataWordCount : Z;   (* uint16 *)
  pointerCount : Z;    (* uint16 *)
  fields : list Field
}.

Inductive Node_Which : Type :=
| Node_file
| Node_struct (structInfo : Node_Struct)
| Node_enum
| Node_interface
| Node_const
| Node_annotation.

Record Node : Type := {
  Node_id : Z;                 (* bigint *)
  Node_displayName : string;
  Node_which : Node_Which
}.

(** [node._isStruct] *)
Definition Node_isStruct (n : Node) : bool :=
  match Node_which n with Node_struct _ => true | _ => false end.

End Schema.
Import Schema.

Abbreviation Type_VOID := (Type_tag VOID).
Abbreviation Type_BOOL := (Type_tag BOOL).
Abbreviation Type_INT8 := (Type_tag INT8).
Abbreviation Type_INT16 := (Type_tag INT16).
Abbreviation Type_INT32 := (Type_tag INT32).
Abbreviation Type_INT64 := (Type_tag INT64).
Abbreviation Type_UINT8 := (Type_tag UINT8).
Abbreviation Type_UINT16 := (Type_tag UINT16).
Abbreviation Type_UINT32 := (Type_tag UINT32).
Abbreviation Type_UINT64 := (Type_tag UINT64).
Abbreviation Type_FLOAT32 := (Type_tag FLOAT32).
Abbreviation Type_FLOAT64 := (Type_tag FLOAT64).
Abbreviation Type_TEXT := (Type_tag TEXT).
Abbreviation Type_DATA := (Type_tag DATA).
Abbreviation Type_LIST := (Type_tag LIST).
Abbreviation Type_ENUM := (Type_tag ENUM).
Abbreviation Type_STRUCT := (Type_tag STRUCT).
Abbreviation Type_INTERFACE := (Type_tag INTERFACE).
Abbreviation Type_ANY_POINTER := (Type_tag ANY_POINTER).

(* ================================================================== *)
(** * The wire layer: fixed-width scalars and bits of a data section *)
(* ================================================================== *)

Module Wire.

(** Modelled from the spec: the bounds check of pointers/utils, which is
    not part of the loader's source ("bounds-checked read/write of
    fixed-width scalars and single bits at byte/bit offsets"). A data
    section is the list of its bytes. *)
Definition checkDataBounds (byteOffset byteLength : Z) (data : list Z) : bool :=
  (0 <=? byteOffset) && (byteOffset + byteLength <=? Z.of_nat (List.length data)).

(** Little-endian value of a run of bytes. *)
Fixpoint le_decode (bs : list Z) : Z :=
  match bs with
  | [] => 0
  | b :: rest => b + 256 * le_decode rest
  end.

(** The [n] little-endian bytes of [v]. *)
Fixpoint le_encode (n : nat) (v : Z) : list Z :=
  match n with
  | O => []
  | S n' => (v mod 256) :: le_encode n' (v / 256)
  end.

Definition slice (off : Z) (len : nat) (data : list Z) : list Z :=
  firstn len (skipn (Z.to_nat off) data).

Definition splice (off : Z) (bytes data : list Z) : list Z :=
  firstn (Z.to_nat off) data ++ bytes
    ++ skipn (Z.to_nat off + List.length bytes) data.

(** Two's complement reading of a [8 * width]-bit unsigned value. *)
Definition to_signed (width : nat) (u : Z) : Z :=
  if u <? 2 ^ (8 * Z.of_nat width - 1) then u else u - 2 ^ (8 * Z.of_nat width).

(** Modelled from the spec: the fixed-width unsigned read of
    pointers/utils ([getUint8] ... [getUint64]), which is not part of the
    loader's source: bounds-checked, little-endian, at a byte offset. *)
Definition getUint (width : nat) (byteOffset : Z) (data : list Z) : Result Z :=
  if checkDataBounds byteOffset (Z.of_nat width) data
  then Ok (le_decode (slice byteOffset width data))
  else Throw RangeError.

(** Modelled from the spec: the fixed-width signed read of pointers/utils
    ([getInt8] ... [getInt64]), which is not part of the loader's source. *)
Definition getInt (width : nat) (byteOffset : Z) (data : list Z) : Result Z :=
  rmap (to_signed width) (getUint width byteOffset data).

(** Modelled from the spec: the fixed-width write of pointers/utils
    ([setInt8] ... [setUint64]), which is not part of the loader's source:
    bounds-checked; the value is stored modulo [2 ^ (8 * width)],
    little-endian. *)
Definition setInt (width : nat) (byteOffset : Z) (value : Z) (data : list Z)
  : Result (list Z) :=
  if checkDataBounds byteOffset (Z.of_nat width) data
  then Ok (splice byteOffset (le_encode width (value mod 2 ^ (8 * Z.of_nat width))) data)
  else Throw RangeError.

(** Modelled from the spec: the single-bit read of pointers/utils
    ([getBit]), which is not part of the loader's source: bit
    [bitOffset mod 8] of byte [bitOffset / 8]. *)
Definition getBit (bitOffset : Z) (data : list Z) : Result bool :=
  if checkDataBounds (bitOffset / 8) 1 data
  then Ok (Z.testbit (nth (Z.to_nat (bitOffset / 8)) data 0) (bitOffset mod 8))
  else Throw RangeError.

(** Modelled from the spec: the single-bit write of pointers/utils
    ([setBit]), which is not part of the loader's source. *)
Definition setBit (bitOffset : Z) (value : bool) (data : list Z) : Result (list Z) :=
  if checkDataBounds (bitOffset / 8) 1 data
  then
    let b := nth (Z.to_nat (bitOffset / 8)) data 0 in
    let b' := if value then Z.setbit b (bitOffset mod 8)
              else Z.clearbit b (bitOffset mod 8) in
    Ok (splice (bitOffset / 8) [b'] data)
  else Throw RangeError.

End Wire.

(* ================================================================== *)
(** * schema-loader.ts *)
(* ================================================================== *)

Module SchemaLoader.

(** [new ObjectSize(dataByteLength, pointerLength)] *)
Record ObjectSize : Type := {
  dataByteLength : Z;
  pointerLength : Z
}.

Record FieldInfo : Type := {
  name : string;
  offset : Z;
  type : string;
  isPointer : bool;
  isPrimitive : bool;
  isText : bool;
  isData : bool;
  isList : bool;
  isStruct : bool;
  structTypeId : option Z;
  listElementType : option string
}.

Definition with_structTypeId (f : FieldInfo) (v : Z) : FieldInfo :=
  {| name := name f; offset := offset f; type := type f;
     isPointer := isPointer f; isPrimitive := isPrimitive f;
     isText := isText f; isData := isData f; isList := isList f;
     isStruct := isStruct f;
     structTypeId := Some v; listElementType := listElementType f |}.

Definition with_listElementType (f : FieldInfo) (v : string) : FieldInfo :=
  {| name := name f; offset := offset f; type := type f;
     isPointer := isPointer f; isPrimitive := isPrimitive f;
     isText := isText f; isData := isData f; isList := isList f;
     isStruct := isStruct f;
     structTypeId := structTypeId f; listElementType := Some v |}.

(** The getter closures the loader builds: each is a call of one function
    of pointers/utils on [this], closed over a number fixed when the
    closure is made; [return_undefined] is the default of
    [createPrimitiveGetter]. *)
Inductive Getter : Type :=
| utils_getBit (bitOffset : Z)
| utils_getInt8 (byteOffset : Z)
| utils_getInt16 (byteOffset : Z)
| utils_getInt32 (byteOffset : Z)
| utils_getInt64 (byteOffset : Z)
| utils_getUint8 (byteOffset : Z)
| utils_getUint16 (byteOffset : Z)
| utils_getUint32 (byteOffset : Z)
| utils_getUint64 (byteOffset : Z)
| utils_getFloat32 (byteOffset : Z)
| utils_getFloat64 (byteOffset : Z)
| utils_getText (index : Z)
| utils_getData (index : Z)
| utils_getPointer (index : Z)
| return_undefined.

(** The setter closures; [no_op] is the default of
    [createPrimitiveSetter]. *)
Inductive Setter : Type :=
| utils_setBit (bitOffset : Z)
| utils_setInt8 (byteOffset : Z)
| utils_setInt16 (byteOffset : Z)
| utils_setInt32 (byteOffset : Z)
| utils_setInt64 (byteOffset : Z)
| utils_setUint8 (byteOffset : Z)
| utils_setUint16 (byteOffset : Z)
| utils_setUint32 (byteOffset : Z)
| utils_setUint64 (byteOffset : Z)
| utils_setFloat32 (byteOffset : Z)
| utils_setFloat64 (byteOffset : Z)
| utils_setText (index : Z)
| no_op.

(** The [PropertyDescriptor] object of [addFieldAccessors]; an absent
    [get] or [set] is [None]. *)
Record PropertyDescriptor : Type := {
  descriptor_get : option Getter;
  descriptor_set : option Setter;
  descriptor_enumerable : bool;
  descriptor_configurable : bool
}.

(** An own property of a prototype object.  Every property here is
    configurable (class members are, and the loader's descriptors say so),
    so redefinition never fails and the attribute is left out. *)
Inductive Property : Type :=
| DataProperty (value : Value) (enumerable : bool)
| AccessorProperty (getter : option Getter) (setter : option Setter)
    (enumerable : bool).

Definition Prototype : Type := Table Property.

Definition property_enumerable (p : Property) : bool :=
  match p with
  | DataProperty _ e => e
  | AccessorProperty _ _ e => e
  end.

Definition or_keep {A} (new old : option A) : option A :=
  match new with Some _ => new | None => old end.

(** [Object.defineProperty(prototype, key, descriptor)] with an accessor
    descriptor: a new key is appended; an existing accessor keeps its
    place and whichever of get/set the descriptor leaves out; an existing
    data property becomes an accessor. *)
Definition defineProperty (prototype : Prototype) (key : string)
    (descriptor : PropertyDescriptor) : Prototype :=
  table_update prototype key (fun current =>
    match current with
    | Some (AccessorProperty g s _) =>
        AccessorProperty (or_keep (descriptor_get descriptor) g)
                         (or_keep (descriptor_set descriptor) s)
                         (descriptor_enumerable descriptor)
    | Some (DataProperty _ _) | None =>
        AccessorProperty (descriptor_get descriptor)
                         (descriptor_set descriptor)
                         (descriptor_enumerable descriptor)
    end).

(** The enumerable own keys, in insertion order. *)
Definition enumerable_keys (prototype : Prototype) : list string :=
  table_keys (filter (fun kv => property_enumerable (snd kv)) prototype).

(** [Object.keys(prototype)]: the enumerable own keys, array indices
    first in ascending order, then the other keys in insertion order. *)
Definition Object_keys (prototype : Prototype) : list string :=
  own_key_order (enumerable_keys prototype).

Record Capnp : Type := {
  capnp_displayName : string;
  capnp_id : string;
  capnp_size : ObjectSize
}.

(** A class extending Struct: its static [_capnp] and its prototype. *)
Record StructCtor : Type := {
  _capnp : Capnp;
  prototype : Prototype
}.

Record LoadedSchema : Type := {
  id : Z;
  displayName : string;
  size : ObjectSize;
  structCtor : StructCtor
}.

(** The loader object: [private schemas: Map<string, LoadedSchema>]. *)
Record State : Type := {
  schemas : Table LoadedSchema
}.

(** [new SchemaLoader()] *)
Definition new : State := {| schemas := [] |}.

(** Methods run on the loader object and either return or throw; the
    object they leave behind is part of the outcome in both cases. *)
Definition M (A : Type) : Type := State -> Result A * State.

Definition ret {A} (a : A) : M A := fun this => (Ok a, this).
Definition throw {A} (e : Exn) : M A := fun this => (Throw e, this).
Definition bind {A B} (m : M A) (k : A -> M B) : M B :=
  fun this =>
    match m this with
    | (Ok a, this') => k a this'
    | (Throw e, this') => (Throw e, this')
    end.
Definition schemas_get (key : string) : M (option LoadedSchema) :=
  fun this => (Ok (table_get (schemas this) key), this).
Definition schemas_set (key : string) (schema : LoadedSchema) : M unit :=
  fun this => (Ok tt, {| schemas := table_set (schemas this) key schema |}).
Definition schemas_values : M (list LoadedSchema) :=
  fun this => (Ok (table_values (schemas this)), this).

Declare Scope loader_scope.
Delimit Scope loader_scope with loader.
Notation "x <- m ;; k" := (bind m (fun x => k))
  (at level 61, m at next level, right associativity) : loader_scope.
Notation "m ;; k" := (bind m (fun _ => k))
  (at level 61, right associativity) : loader_scope.

Section Loader.
Context {tags : TypeTags}.

Definition extractDisplayName (fullName : string) : string :=
  let parts := split_colon fullName in
  or_else (index parts (Z.of_nat (List.length parts) - 1)) fullName.

Definition isPointerType (typeWhich : Z) : bool :=
  (typeWhich =? Type_TEXT) ||
  (typeWhich =? Type_DATA) ||
  (typeWhich =? Type_LIST) ||
  (typeWhich =? Type_STRUCT) ||
  (typeWhich =? Type_ANY_POINTER).

Definition isPrimitiveType (typeWhich : Z) : bool :=
  (typeWhich =? Type_BOOL) ||
  (typeWhich =? Type_INT8) ||
  (typeWhich =? Type_INT16) ||
  (typeWhich =? Type_INT32) ||
  (typeWhich =? Type_INT64) ||
  (typeWhich =? Type_UINT8) ||
  (typeWhich =? Type_UINT16) ||
  (typeWhich =? Type_UINT32) ||
  (typeWhich =? Type_UINT64) ||
  (typeWhich =? Type_FLOAT32) ||
  (typeWhich =? Type_FLOAT64).

Definition typeToString (typeWhich : Z) : string :=
  if typeWhich =? Type_VOID then "void"
  else if typeWhich =? Type_BOOL then "bool"
  else if typeWhich =? Type_INT8 then "int8"
  else if typeWhich =? Type_INT16 then "int16"
  else if typeWhich =? Type_INT32 then "int32"
  else if typeWhich =? Type_INT64 then "int64"
  else if typeWhich =? Type_UINT8 then "uint8"
  else if typeWhich =? Type_UINT16 then "uint16"
  else if typeWhich =? Type_UINT32 then "uint32"
  else if typeWhich =? Type_UINT64 then "uint64"
  else if typeWhich =? Type_FLOAT32 then "float32"
  else if typeWhich =? Type_FLOAT64 then "float64"
  else if typeWhich =? Type_TEXT then "text"
  else if typeWhich =? Type_DATA then "data"
  else if typeWhich =? Type_LIST then "list"
  else if typeWhich =? Type_STRUCT then "struct"
  else if typeWhich =? Type_ENUM then "enum"
  else if typeWhich =? Type_INTERFACE then "interface"
  else if typeWhich =? Type_ANY_POINTER then "anyPointer"
  else "unknown".

(** The body of the loop of [parseFields] for a slot field. *)
Definition slotFieldInfo (field_name : string) (slot : Field_Slot) : FieldInfo :=
  let fieldType := Slot_type slot in
  let typeWhich := Type_which fieldType in
  let fieldInfo :=
    {| name := field_name;
       offset := Slot_offset slot;
       type := typeToString typeWhich;
       isPointer := isPointerType typeWhich;
       isPrimitive := isPrimitiveType typeWhich;
       isText := typeWhich =? Type_TEXT;
       isData := typeWhich =? Type_DATA;
       isList := typeWhich =? Type_LIST;
       isStruct := typeWhich =? Type_STRUCT;
       structTypeId := None;
       listElementType := None |} in
  let fieldInfo :=
    if isStruct fieldInfo
    then with_structTypeId fieldInfo (Type_struct_typeId fieldType)
    else fieldInfo in
  let fieldInfo :=
    if isList fieldInfo
    then with_listElementType fieldInfo
           (typeToString (Type_list_elementType_which fieldType))
    else fieldInfo in
  fieldInfo.

Definition parseFields (fieldsList : list Field) : list FieldInfo :=
  fold_left
    (fun fields field =>
       match Field_which field with
       | Field_group _ => fields                       (* continue *)
       | Field_slot slot =>
           fields ++ [slotFieldInfo (Field_name field) slot]  (* push *)
       end)
    fieldsList [].

(** The object literal of [calculateByteOffset].  It is only ever indexed
    with a label of [typeToString], none of which names a member of
    [Object.prototype], so a lookup is a lookup among these entries. *)
Definition typeSizes : Table Z :=
  [("int8", 1); ("uint8", 1);
   ("int16", 2); ("uint16", 2);
   ("int32", 4); ("uint32", 4);
   ("int64", 8); ("uint64", 8);
   ("float32", 4); ("float64", 8)].

(** [n || d] on a possibly undefined number. *)
Definition number_or (n : option Z) (d : Z) : Z :=
  match n with
  | Some v => if v =? 0 then d else v
  | None => d
  end.

(** Offsets are uint32 and sizes at most 8, so the product is exact in
    double arithmetic. *)
Definition calculateByteOffset (field : FieldInfo) : Z :=
  if String.eqb (type field) "bool" then offset field / 8
  else
    let typeSize := number_or (table_get typeSizes (type field)) 8 in
    offset field * typeSize.

Definition createPrimitiveGetter (field : FieldInfo) : Getter :=
  let byteOffset := calculateByteOffset field in
  let t := type field in
  if String.eqb t "bool" then utils_getBit (offset field)
  else if String.eqb t "int8" then utils_getInt8 byteOffset
  else if String.eqb t "int16" then utils_getInt16 byteOffset
  else if String.eqb t "int32" then utils_getInt32 byteOffset
  else if String.eqb t "int64" then utils_getInt64 byteOffset
  else if String.eqb t "uint8" then utils_getUint8 byteOffset
  else if String.eqb t "uint16" then utils_getUint16 byteOffset
  else if String.eqb t "uint32" then utils_getUint32 byteOffset
  else if String.eqb t "uint64" then utils_getUint64 byteOffset
  else if String.eqb t "float32" then utils_getFloat32 byteOffset
  else if String.eqb t "float64" then utils_getFloat64 byteOffset
  else return_undefined.

Definition createPrimitiveSetter (field : FieldInfo) : Setter :=
  let byteOffset := calculateByteOffset field in
  let t := type field in
  if String.eqb t "bool" then utils_setBit (offset field)
  else if String.eqb t "int8" then utils_setInt8 byteOffset
  else if String.eqb t "int16" then utils_setInt16 byteOffset
  else if String.eqb t "int32" then utils_setInt32 byteOffset
  else if String.eqb t "int64" then utils_setInt64 byteOffset
  else if String.eqb t "uint8" then utils_setUint8 byteOffset
  else if String.eqb t "uint16" then utils_setUint16 byteOffset
  else if String.eqb t "uint32" then utils_setUint32 byteOffset
  else if String.eqb t "uint64" then utils_setUint64 byteOffset
  else if String.eqb t "float32" then utils_setFloat32 byteOffset
  else if String.eqb t "float64" then utils_setFloat64 byteOffset
  else no_op.

(** The descriptor [addFieldAccessors] builds before it defines the
    property. *)
Definition fieldDescriptor (field : FieldInfo) : PropertyDescriptor :=
  let '(g, s) :=
    if isPrimitive field then
      (Some (createPrimitiveGetter field), Some (createPrimitiveSetter field))
    else if isText field then
      (Some (utils_getText (offset field)), Some (utils_setText (offset field)))
    else if isData field then
      (Some (utils_getData (offset field)), None)
    else if isList field then
      (Some (utils_getPointer (offset field)), None)
    else if isStruct field then
      (Some (utils_getPointer (offset field)), None)
    else
      (Some (utils_getPointer (offset field)), None) in
  {| descriptor_get := g;
     descriptor_set := s;
     descriptor_enumerable := true;
     descriptor_configurable := true |}.

Definition addFieldAccessors (prototype : Prototype) (field : FieldInfo)
  : Prototype :=
  defineProperty prototype (name field) (fieldDescriptor field).

(** The prototype of [class extends Struct { toString() {...} }] before
    any accessor is added: the constructor and the method, neither
    enumerable. *)
Definition DynamicStruct_prototype : Prototype :=
  [("constructor", DataProperty (VFunction "DynamicStruct") false);
   ("toString", DataProperty (VFunction "toString") false)].

Definition createDynamicStruct (id : string) (displayName : string)
    (size : ObjectSize) (fields : list FieldInfo) : StructCtor :=
  {| _capnp := {| capnp_displayName := displayName;
                  capnp_id := id;
                  capnp_size := size |};
     prototype := fold_left addFieldAccessors fields DynamicStruct_prototype |}.

Local Open Scope loader_scope.

Definition loadDynamic (node : Node) : M LoadedSchema :=
  let id := Node_id node in
  let displayName := extractDisplayName (Node_displayName node) in
  match Node_which node with
  | Node_struct structInfo =>
      let size := {| dataByteLength := dataWordCount structInfo * 8;
                     pointerLength := pointerCount structInfo |} in
      let fields := parseFields (Schema.fields structInfo) in
      let structCtor :=
        createDynamicStruct (bigint_toString16 id) displayName size fields in
      let schema := {| id := id;
                       displayName := displayName;
                       size := size;
                       structCtor := structCtor |} in
      schemas_set (bigint_toString id) schema ;;
      ret schema
  | _ => throw (NotAStructError displayName id)
  end.

Definition get (id : Z) : M LoadedSchema :=
  schema <- schemas_get (bigint_toString id) ;;
  match schema with
  | None => throw (SchemaNotFoundError id)
  | Some schema => ret schema
  end.

Definition getByName (name : string) : M (option LoadedSchema) :=
  values <- schemas_values ;;
  ret (find (fun schema => String.eqb (displayName schema) name) values).

End Loader.

(** ** Struct instances and [toObject] *)

Section Projection.
(** Whatever a struct view reaches besides the bytes of its data
    section: the pointer section and the segments behind it. *)
Variable Heap : Type.

Record View : Type := {
  data : list Z;
  heap : Heap
}.

Definition with_data (v : View) (d : list Z) : View :=
  {| data := d; heap := heap v |}.

(** The readers and writers of pointers/utils that are left abstract:
    floats and everything that follows a pointer. *)
Record External : Type := {
  ext_getFloat32 : Z -> View -> Result Value;
  ext_getFloat64 : Z -> View -> Result Value;
  ext_getText : Z -> View -> Result Value;
  ext_getData : Z -> View -> Result Value;
  ext_getPointer : Z -> View -> Result Value;
  ext_setFloat32 : Z -> Value -> View -> Result View;
  ext_setFloat64 : Z -> Value -> View -> Result View;
  ext_setText : Z -> Value -> View -> Result View
}.

Variable utils : External.

(** Calling a getter closure with [this] bound to a view. *)
Definition run_getter (g : Getter) (this : View) : Result Value :=
  match g with
  | utils_getBit bitOffset => rmap VBool (Wire.getBit bitOffset (data this))
  | utils_getInt8 byteOffset => rmap VNumber (Wire.getInt 1 byteOffset (data this))
  | utils_getInt16 byteOffset => rmap VNumber (Wire.getInt 2 byteOffset (data this))
  | utils_getInt32 byteOffset => rmap VNumber (Wire.getInt 4 byteOffset (data this))
  | utils_getInt64 byteOffset => rmap VBigInt (Wire.getInt 8 byteOffset (data this))
  | utils_getUint8 byteOffset => rmap VNumber (Wire.getUint 1 byteOffset (data this))
  | utils_getUint16 byteOffset => rmap VNumber (Wire.getUint 2 byteOffset (data this))
  | utils_getUint32 byteOffset => rmap VNumber (Wire.getUint 4 byteOffset (data this))
  | utils_getUint64 byteOffset => rmap VBigInt (Wire.getUint 8 byteOffset (data this))
  | utils_getFloat32 byteOffset => ext_getFloat32 utils byteOffset this
  | utils_getFloat64 byteOffset => ext_getFloat64 utils byteOffset this
  | utils_getText index => ext_getText utils index this
  | utils_getData index => ext_getData utils index this
  | utils_getPointer index => ext_getPointer utils index this
  | return_undefined => Ok VUndefined
  end.

(** A setter that stores an integer of [width] bytes; its TypeScript
    signature admits [number] (or [bigint] for the 64-bit ones) only. *)
Definition store_number (width : nat) (byteOffset : Z) (value : Value)
    (this : View) : Result View :=
  match value with
  | VNumber n => rmap (with_data this) (Wire.setInt width byteOffset n (data this))
  | _ => Throw TypeError
  end.

Definition store_bigint (width : nat) (byteOffset : Z) (value : Value)
    (this : View) : Result View :=
  match value with
  | VBigInt n => rmap (with_data this) (Wire.setInt width byteOffset n (data this))
  | _ => Throw TypeError
  end.

(** Calling a setter closure with [this] bound to a view: the view
    after the write. *)
Definition run_setter (s : Setter) (value : Value) (this : View) : Result View :=
  match s with
  | utils_setBit bitOffset =>
      match value with
      | VBool b => rmap (with_data this) (Wire.setBit bitOffset b (data this))
      | _ => Throw TypeError
      end
  | utils_setInt8 byteOffset => store_number 1 byteOffset value this
  | utils_setInt16 byteOffset => store_number 2 byteOffset value this
  | utils_setInt32 byteOffset => store_number 4 byteOffset value this
  | utils_setInt64 byteOffset => store_bigint 8 byteOffset value this
  | utils_setUint8 byteOffset => store_number 1 byteOffset value this
  | utils_setUint16 byteOffset => store_number 2 byteOffset value this
  | utils_setUint32 byteOffset => store_number 4 byteOffset value this
  | utils_setUint64 byteOffset => store_bigint 8 byteOffset value this
  | utils_setFloat32 byteOffset => ext_setFloat32 utils byteOffset value this
  | utils_setFloat64 byteOffset => ext_setFloat64 utils byteOffset value this
  | utils_setText index => ext_setText utils index value this
  | no_op => Ok this
  end.

(** A struct instance: the prototype it was constructed from
    ([Object.getPrototypeOf]), its own properties (they shadow the
    prototype's), and the view it is bound to. *)
Record Struct : Type := {
  proto : Prototype;
  own : Table Value;
  view : View
}.

(** [struct[key]]: an own property wins, then the prototype's
    property; an accessor runs its getter on the instance.  The keys
    [toObject] asks for are keys of the prototype, so the lookup never
    goes further up the chain. *)
Definition get_property (struct : Struct) (key : string) : Result Value :=
  match table_get (own struct) key with
  | Some v => Ok v
  | None =>
      match table_get (proto struct) key with
      | Some (AccessorProperty (Some g) _ _) => run_getter g (view struct)
      | Some (AccessorProperty None _ _) => Ok VUndefined
      | Some (DataProperty v _) => Ok v
      | None => Ok VUndefined
      end
  end.

(** One turn of the loop of [toObject]. *)
Definition toObject_step (struct : Struct) (obj : Table Value) (key : string)
  : Table Value :=
  match get_property struct key with
  | Ok value =>
      if is_function value || is_undefined value then obj   (* continue *)
      else plain_assign obj key value
  | Throw _ => plain_assign obj key VNull                    (* catch *)
  end.

(** [toObject] reads neither the loader nor its [schema] argument. The
    table is the own properties of the object it returns, in insertion
    order; the object's prototype link, which a key ["__proto__"] can
    replace, is not part of it (an object put there by the pointer layer is
    taken to carry no accessor under the keys written afterwards). *)
Definition toObject (struct : Struct) (schema : LoadedSchema) : Table Value :=
  fold_left (toObject_step struct) (Object_keys (proto struct)) [].

End Projection.

Arguments data {Heap} _.
Arguments heap {Heap} _.
Arguments with_data {Heap} _ _.
Arguments run_getter {Heap} utils g this.
Arguments run_setter {Heap} utils s value this.
Arguments proto {Heap} _.
Arguments own {Heap} _.
Arguments view {Heap} _.
Arguments get_property {Heap} utils struct key.
Arguments toObject_step {Heap} utils struct obj key.
Arguments toObject {Heap} utils struct schema.

End SchemaLoader.
Import SchemaLoader.

(* ================================================================== *)
(** * Vocabulary of the specification *)
(* ================================================================== *)

Module Spec.

Fixpoint contains_colon (s : string) : bool :=
  match s with
  | EmptyString => false
  | String c rest => Ascii.eqb c ":"%char || contains_colon rest
  end.

(** "Only the text after the final colon is kept": the suffix that
    follows the last colon of [s]; all of [s] when it has no colon. *)
Fixpoint text_after_final_colon (s : string) : string :=
  match s with
  | EmptyString => EmptyString
  | String c rest =>
      if contains_colon rest then text_after_final_colon rest
      else if Ascii.eqb c ":"%char then rest
      else s
  end.

Definition is_empty (s : string) : bool :=
  match s with EmptyString => true | _ => false end.

(** The loader after [loadDynamic] was called on each node in turn,
    whether the call returned or threw. *)
Definition after_loads {tags : TypeTags} (nodes : list Node) : State :=
  fold_left (fun this node => snd (loadDynamic node this)) nodes new.

(** Some call among [nodes] loaded a struct node with this id. *)
Definition loaded (nodes : list Node) (id : Z) : bool :=
  existsb (fun node => Node_isStruct node && (Node_id node =? id)) nodes.

(** The entries of the registry stored under the key of [id]. *)
Definition entries_for (this : State) (id : Z) : list LoadedSchema :=
  map snd (filter (fun kv => String.eqb (fst kv) (bigint_toString id))
                  (schemas this)).

(** The primitive wire types: bool and the fixed-width numbers. *)
Definition is_primitive (w : WireType) : bool :=
  match w with
  | BOOL | INT8 | INT16 | INT32 | INT64 | UINT8 | UINT16 | UINT32 | UINT64
  | FLOAT32 | FLOAT64 => true
  | _ => false
  end.

(** The width table: int8/uint8 = 1, int16/uint16 = 2,
    int32/uint32/float32 = 4, int64/uint64/float64 = 8. *)
Definition byte_width (w : WireType) : Z :=
  match w with
  | INT8 | UINT8 => 1
  | INT16 | UINT16 => 2
  | INT32 | UINT32 | FLOAT32 => 4
  | INT64 | UINT64 | FLOAT64 => 8
  | _ => 0
  end.

(** Where a primitive field at wire offset [k] lives: a bit index for
    bool, [k] times the byte width otherwise. *)
Definition position (w : WireType) (k : Z) : Z :=
  match w with
  | BOOL => k
  | _ => k * byte_width w
  end.

(** The wire-layer reader and writer that belong to a primitive type. *)
Definition reader (w : WireType) : Z -> Getter :=
  match w with
  | BOOL => utils_getBit
  | INT8 => utils_getInt8 | INT16 => utils_getInt16
  | INT32 => utils_getInt32 | INT64 => utils_getInt64
  | UINT8 => utils_getUint8 | UINT16 => utils_getUint16
  | UINT32 => utils_getUint32 | UINT64 => utils_getUint64
  | FLOAT32 => utils_getFloat32 | FLOAT64 => utils_getFloat64
  | _ => fun _ => return_undefined
  end.

Definition writer (w : WireType) : Z -> Setter :=
  match w with
  | BOOL => utils_setBit
  | INT8 => utils_setInt8 | INT16 => utils_setInt16
  | INT32 => utils_setInt32 | INT64 => utils_setInt64
  | UINT8 => utils_setUint8 | UINT16 => utils_setUint16
  | UINT32 => utils_setUint32 | UINT64 => utils_setUint64
  | FLOAT32 => utils_setFloat32 | FLOAT64 => utils_setFloat64
  | _ => fun _ => no_op
  end.

(** The semantic label of each named wire type. *)
Definition label (w : WireType) : string :=
  match w with
  | VOID => "void" | BOOL => "bool"
  | INT8 => "int8" | INT16 => "int16" | INT32 => "int32" | INT64 => "int64"
  | UINT8 => "uint8" | UINT16 => "uint16" | UINT32 => "uint32"
  | UINT64 => "uint64" | FLOAT32 => "float32" | FLOAT64 => "float64"
  | TEXT => "text" | DATA => "data" | LIST => "list" | ENUM => "enum"
  | STRUCT => "struct" | INTERFACE => "interface"
  | ANY_POINTER => "anyPointer"
  end.

(** The pointer-bearing wire types of the classifier. *)
Definition is_pointer (w : WireType) : bool :=
  match w with
  | TEXT | DATA | LIST | STRUCT | ANY_POINTER => true
  | _ => false
  end.

(** An accessor descriptor as the loader writes it: a getter, maybe a
    setter, enumerable and configurable. *)
Definition accessor_descriptor (g : Getter) (s : option Setter)
  : PropertyDescriptor :=
  {| descriptor_get := Some g;
     descriptor_set := s;
     descriptor_enumerable := true;
     descriptor_configurable := true |}.

(** The prototype has no accessor under [key] yet. *)
Definition not_an_accessor (prototype : Prototype) (key : string) : bool :=
  match table_get prototype key with
  | Some (AccessorProperty _ _ _) => false
  | _ => true
  end.

(** The labels of the classifier. *)
Definition labels : list string :=
  ["void"; "bool"; "int8"; "int16"; "int32"; "int64"; "uint8"; "uint16";
   "uint32"; "uint64"; "float32"; "float64"; "text"; "data"; "list";
   "struct"; "enum"; "interface"; "anyPointer"; "unknown"].

(** One descriptor per slot field, none for the others, in order. *)
Definition slot_descriptors {tags : TypeTags} (fieldsList : list Field)
  : list FieldInfo :=
  flat_map (fun field =>
              match Field_which field with
              | Field_slot slot => [slotFieldInfo (Field_name field) slot]
              | Field_group _ => []
              end) fieldsList.

(** What [toObject] is to hold for a key, given the outcome of reading
    it: nothing for a function or [undefined], [null] for a failed read,
    the value otherwise. *)
Definition projected (r : Result Value) : option Value :=
  match r with
  | Ok value => if is_function value || is_undefined value then None else Some value
  | Throw _ => Some VNull
  end.

Definition in_int32_range (v : Z) : Prop := - 2 ^ 31 <= v < 2 ^ 31.

End Spec.
Import Spec.

(* ================================================================== *)
(** * Sample schemas and instances *)
(* ================================================================== *)

Module Examples.

Definition type_of (tag : Z) : Type_ :=
  {| Type_which := tag; Type_struct_typeId := 0;
     Type_list_elementType_which := 0 |}.

(** A struct type that refers to the node [typeId]. *)
Definition struct_type (typeId : Z) : Type_ :=
  {| Type_which := 16; Type_struct_typeId := typeId;
     Type_list_elementType_which := 0 |}.

(** A list type with elements of the type tagged [element]. *)
Definition list_type (element : Z) : Type_ :=
  {| Type_which := 14; Type_struct_typeId := 0;
     Type_list_elementType_which := element |}.

Definition typed_field (field_name : string) (off : Z) (ty : Type_) : Field :=
  {| Field_name := field_name;
     Field_which := Field_slot {| Slot_offset := off; Slot_type := ty |} |}.

Definition group_field (field_name : string) (typeId : Z) : Field :=
  {| Field_name := field_name; Field_which := Field_group typeId |}.

Definition slot_field (field_name : string) (off tag : Z) : Field :=
  {| Field_name := field_name;
     Field_which := Field_slot {| Slot_offset := off; Slot_type := type_of tag |} |}.

Definition struct_node (i : Z) (display : string) (fs : list Field) : Node :=
  {| Node_id := i; Node_displayName := display;
     Node_which := Node_struct {| dataWordCount := 2; pointerCount := 1;
                                  fields := fs |} |}.

(** struct Bar { label @0 :Text; count @1 :Int32; } nested in Foo *)
Definition bar_node : Node :=
  struct_node 11259375 "pkg.capnp:Foo.Bar"
    [slot_field "label" 0 12; slot_field "count" 1 4].

(** The same id, another shape. *)
Definition bar_node' : Node :=
  struct_node 11259375 "pkg.capnp:Baz" [slot_field "on" 3 1].

(** Another id under the display name of [bar_node']. *)
Definition baz_node : Node :=
  struct_node 21 "other.capnp:Baz" [slot_field "level" 0 7].

(** A display name that ends in a colon. *)
Definition trailing_colon_node : Node :=
  struct_node 7 "pkg.capnp:" [].

Definition enum_node : Node :=
  {| Node_id := 5; Node_displayName := "pkg.capnp:Color";
     Node_which := Node_enum |}.

(** struct Unit { nothing @0 :Void; } *)
Definition void_node : Node :=
  struct_node 9 "pkg.capnp:Unit" [slot_field "nothing" 0 0].

(** A pointer layer that resolves every pointer slot to some object and
    knows no floats. *)
Definition opaque_pointers : External unit :=
  {| ext_getFloat32 := fun _ _ => Throw (ExternalError 0);
     ext_getFloat64 := fun _ _ => Throw (ExternalError 0);
     ext_getText := fun index _ => Ok (VObject index);
     ext_getData := fun index _ => Ok (VObject index);
     ext_getPointer := fun index _ => Ok (VObject index);
     ext_setFloat32 := fun _ _ _ => Throw (ExternalError 0);
     ext_setFloat64 := fun _ _ _ => Throw (ExternalError 0);
     ext_setText := fun _ _ _ => Throw (ExternalError 0) |}.

Definition zeroed (bytes : nat) : View unit :=
  {| data := repeat 0 bytes; heap := tt |}.

(** An instance of the class a schema carries, bound to a view. *)
Definition instance (schema : LoadedSchema) (v : View unit) : Struct unit :=
  {| proto := prototype (structCtor schema); own := []; view := v |}.

Definition loaded_schema (node : Node) : option LoadedSchema :=
  match fst (loadDynamic (tags := schema_capnp_tags) node new) with
  | Ok schema => Some schema
  | Throw _ => None
  end.

(** A pointer layer in which every pointer read fails. *)
Definition failing_pointers : External unit :=
  {| ext_getFloat32 := fun _ _ => Throw (ExternalError 0);
     ext_getFloat64 := fun _ _ => Throw (ExternalError 0);
     ext_getText := fun _ _ => Throw RangeError;
     ext_getData := fun _ _ => Throw RangeError;
     ext_getPointer := fun _ _ => Throw RangeError;
     ext_setFloat32 := fun _ _ _ => Throw (ExternalError 0);
     ext_setFloat64 := fun _ _ _ => Throw (ExternalError 0);
     ext_setText := fun _ _ _ => Throw RangeError |}.

(** struct P { a @0 :Int32; __proto__ @1 :Text; }, as a schema node may
    name its fields. *)
Definition proto_key_node : Node :=
  struct_node 13 "pkg.capnp:P" [slot_field "a" 0 4; slot_field "__proto__" 0 12].


(** A schema without fields. *)
Definition empty_schema : LoadedSchema :=
  let size := {| dataByteLength := 0; pointerLength := 0 |} in
  {| id := 3; displayName := "Empty"; size := size;
     structCtor := createDynamicStruct "3" "Empty" size [] |}.

(** An instance whose type has an accessor that returns undefined next
    to a pointer accessor. *)
Definition undefined_reader : Struct unit :=
  {| proto := [("gone", AccessorProperty (Some return_undefined) None true);
               ("kept", AccessorProperty (Some (utils_getPointer 3)) None true)];
     own := [];
     view := zeroed 8 |}.

End Examples.


(* ================================================================== *)
(** * Vocabulary for the further properties *)
(* ================================================================== *)

Module Shapes.

Definition is_some {A : Type} (o : option A) : bool :=
  match o with Some _ => true | None => false end.

(** The schema a load of [node] returns, if it returns one. *)
Definition schema_of {tags : TypeTags} (node : Node) : option LoadedSchema :=
  match fst (loadDynamic node new) with
  | Ok schema => Some schema
  | Throw _ => None
  end.

(** The last field of the list that carries the name. *)
Definition last_named (key : string) (fields : list FieldInfo) : option FieldInfo :=
  find (fun f => String.eqb (name f) key) (rev fields).

(** The last field of that name whose descriptor brings a setter. *)
Definition last_setter_named (key : string) (fields : list FieldInfo)
  : option FieldInfo :=
  find (fun f => String.eqb (name f) key
                 && is_some (descriptor_set (fieldDescriptor f)))
       (rev fields).

(** The names the class body itself puts on the prototype. *)
Definition class_member (key : string) : bool :=
  String.eqb key "constructor" || String.eqb key "toString".

(** The entry a field leaves on a prototype that has nothing of its name. *)
Definition own_entry (field : FieldInfo) : string * Property :=
  (name field,
   AccessorProperty (descriptor_get (fieldDescriptor field))
                    (descriptor_set (fieldDescriptor field)) true).

(** What [toObject] records under a key, given the outcome of reading
    it: nothing under ["__proto__"], and what [projected] says under every
    other key. *)
Definition recorded (key : string) (r : Result Value) : option Value :=
  if String.eqb key "__proto__" then None else projected r.


(** The byte offset [calculateByteOffset] arrives at for a field of a
    named wire type at wire offset [k]: the byte that holds the bit for
    bool, [k] times the width for the sized types, and [k] times 8 for
    every type without an entry in the size table. *)
Definition byteOffset_for (w : WireType) (k : Z) : Z :=
  match w with
  | BOOL => k / 8
  | INT8 | UINT8 => k
  | INT16 | UINT16 => k * 2
  | INT32 | UINT32 | FLOAT32 => k * 4
  | _ => k * 8
  end.

(** The fixed-width integer types. *)
Definition is_integer (w : WireType) : bool :=
  match w with
  | INT8 | INT16 | INT32 | INT64 | UINT8 | UINT16 | UINT32 | UINT64 => true
  | _ => false
  end.

(** The values an integer type holds. *)
Definition in_range (w : WireType) (v : Z) : Prop :=
  match w with
  | INT8 => - 2 ^ 7 <= v < 2 ^ 7
  | INT16 => - 2 ^ 15 <= v < 2 ^ 15
  | INT32 => - 2 ^ 31 <= v < 2 ^ 31
  | INT64 => - 2 ^ 63 <= v < 2 ^ 63
  | UINT8 => 0 <= v < 2 ^ 8
  | UINT16 => 0 <= v < 2 ^ 16
  | UINT32 => 0 <= v < 2 ^ 32
  | UINT64 => 0 <= v < 2 ^ 64
  | _ => False
  end.

(** How an integer of the type travels through its accessor: a bigint for
    the 64-bit types, a number otherwise. *)
Definition js_integer (w : WireType) (v : Z) : Value :=
  match w with
  | INT64 | UINT64 => VBigInt v
  | _ => VNumber v
  end.

End Shapes.
Import Shapes.
(* ================================================================== *)
(** * Display names *)
(* ================================================================== *)

Section DisplayName.

Lemma split_colon_nonempty s : split_colon s <> [].
Proof.
  destruct s as [|c rest]; simpl; [discriminate|].
  destruct (Ascii.eqb c ":"%char); [discriminate|].
  destruct (split_colon rest); discriminate.
Qed.

Lemma no_colon_text s : contains_colon s = false -> text_after_final_colon s = s.
Proof.
  destruct s as [|c rest]; simpl; [reflexivity|].
  intros H. apply orb_false_iff in H as [Hc Hrest].
  now rewrite Hrest, Hc.
Qed.

(** A string without colon is its own single piece; one with a colon has
    at least two pieces. *)
Lemma split_colon_pieces s :
  match split_colon s with
  | [] => False
  | [p] => contains_colon s = false /\ p = s
  | _ :: _ :: _ => contains_colon s = true
  end.
Proof.
  induction s as [|c rest IH]; simpl; [auto|].
  destruct (Ascii.eqb c ":"%char); simpl.
  - destruct (split_colon rest) as [|p ps] eqn:E; [contradiction|reflexivity].
  - destruct (split_colon rest) as [|p [|q ps]]; [contradiction| |assumption].
    destruct IH as [H ->]. auto.
Qed.

Lemma last_split_colon s :
  last (split_colon s) EmptyString = text_after_final_colon s.
Proof.
  induction s as [|c rest IH]; [reflexivity|].
  pose proof (split_colon_pieces rest) as P.
  cbn [split_colon text_after_final_colon].
  destruct (Ascii.eqb c ":"%char).
  - destruct (split_colon rest) as [|p [|q ps]]; [contradiction| |].
    + destruct P as [H ->]. now rewrite H.
    + rewrite P. exact IH.
  - destruct (split_colon rest) as [|p [|q ps]]; [contradiction| |].
    + destruct P as [H ->]. now rewrite H.
    + rewrite P. exact IH.
Qed.

Lemma index_last {A} (l : list A) (d : A) :
  l <> [] -> index l (Z.of_nat (List.length l) - 1) = Some (last l d).
Proof.
  intros Hne. unfold index.
  destruct l as [|a l]; [contradiction|].
  replace (Z.of_nat (List.length (a :: l)) - 1) with (Z.of_nat (List.length l))
    by (cbn [List.length]; lia).
  destruct (Z.ltb_spec (Z.of_nat (List.length l)) 0); [lia|].
  rewrite Nat2Z.id. clear.
  revert a. induction l as [|b l IH]; intros a; [reflexivity|].
  cbn [List.length nth_error]. rewrite IH. reflexivity.
Qed.

(** [extractDisplayName] keeps the text after the final colon, unless
    that text is empty: then it keeps the whole name. *)
Lemma extractDisplayName_spec fullName :
  extractDisplayName fullName =
    if is_empty (text_after_final_colon fullName) then fullName
    else text_after_final_colon fullName.
Proof.
  unfold extractDisplayName.
  rewrite (index_last _ EmptyString (split_colon_nonempty fullName)).
  rewrite last_split_colon.
  now destruct (text_after_final_colon fullName).
Qed.

End DisplayName.

(* ================================================================== *)
(** * Tables and keys *)
(* ================================================================== *)

Section Tables.
Context {V : Type}.
Implicit Types (t : Table V) (k key : string).

Lemma table_get_update t k key f :
  table_get (table_update t k f) key =
    if String.eqb k key then Some (f (table_get t k)) else table_get t key.
Proof.
  induction t as [|[k0 v] rest IH]; simpl.
  - destruct (String.eqb k key); reflexivity.
  - destruct (String.eqb_spec k0 k) as [->|Hk]; simpl.
    + destruct (String.eqb k key); reflexivity.
    + rewrite IH. destruct (String.eqb_spec k0 key) as [->|Hkey]; [|reflexivity].
      destruct (String.eqb_spec k key); [congruence|reflexivity].
Qed.

Lemma table_get_set t k key v :
  table_get (table_set t k v) key =
    if String.eqb k key then Some v else table_get t key.
Proof. apply table_get_update. Qed.

Lemma table_get_keys t key :
  table_get t key <> None <-> In key (table_keys t).
Proof.
  induction t as [|[k0 v] rest IH]; simpl; [tauto|].
  destruct (String.eqb_spec k0 key) as [->|Hne].
  - split; [auto|discriminate].
  - rewrite IH. split; [auto|intros [H|H]; [contradiction|exact H]].
Qed.

Lemma table_keys_update t k f :
  table_keys (table_update t k f) =
    if in_dec string_dec k (table_keys t) then table_keys t
    else table_keys t ++ [k].
Proof.
  induction t as [|[k0 v] rest IH]; simpl; [reflexivity|].
  destruct (String.eqb_spec k0 k) as [->|Hk]; simpl.
  - destruct (string_dec k k); [reflexivity|contradiction].
  - unfold table_keys in *. rewrite IH.
    destruct (string_dec k0 k); [contradiction|].
    destruct (in_dec string_dec k (map fst rest)); reflexivity.
Qed.

Lemma table_update_NoDup t k f :
  NoDup (table_keys t) -> NoDup (table_keys (table_update t k f)).
Proof.
  intros H. rewrite table_keys_update.
  destruct (in_dec string_dec k (table_keys t)) as [|Hn]; [exact H|].
  apply NoDup_app; [exact H|repeat constructor; simpl; tauto|].
  intros x Hx [<-|[]]. contradiction.
Qed.

Lemma table_update_In t k f key v :
  In (key, v) (table_update t k f) ->
  (key = k /\ v = f (table_get t k)) \/ In (key, v) t.
Proof.
  induction t as [|[k0 v0] rest IH]; simpl.
  - intros [[= <- <-]|[]]. now left.
  - destruct (String.eqb_spec k0 k) as [->|Hk]; simpl.
    + intros [[= <- <-]|H]; [now left|now right; right].
    + intros [H|H]; [now right; left|].
      destruct (IH H) as [?|?]; [now left|now right; right].
Qed.

Lemma table_length_update t k f :
  (List.length (table_update t k f) <= S (List.length t))%nat.
Proof.
  induction t as [|[k0 v] rest IH]; simpl; [lia|].
  destruct (String.eqb k0 k); simpl; lia.
Qed.

(** With distinct keys, the entries stored under a key after a write
    are the written value and nothing else. *)
Lemma table_update_entries t k f :
  NoDup (table_keys t) ->
  map snd (filter (fun kv => String.eqb (fst kv) k) (table_update t k f))
    = [f (table_get t k)].
Proof.
  induction t as [|[k0 v] rest IH]; simpl; intros Hnd.
  - now rewrite String.eqb_refl.
  - apply NoDup_cons_iff in Hnd as [Hnotin Hnd].
    destruct (String.eqb_spec k0 k) as [->|Hk]; simpl.
    + rewrite String.eqb_refl. simpl. f_equal.
      clear IH Hnd. induction rest as [|[k1 v1] rest IH]; simpl; [reflexivity|].
      simpl in Hnotin.
      destruct (String.eqb_spec k1 k); [tauto|]. apply IH. tauto.
    + destruct (String.eqb_spec k0 k); [contradiction|]. apply IH, Hnd.
Qed.

End Tables.

Lemma bigint_toString_inj a b : bigint_toString a = bigint_toString b -> a = b.
Proof.
  unfold bigint_toString. intros H.
  assert (Hnn : forall z, Z.to_int z <> Decimal.Pos Decimal.Nil
                          /\ Z.to_int z <> Decimal.Neg Decimal.Nil).
  { intros [|p|p]; simpl; split; try discriminate;
      intros E; injection E; apply DecimalPos.Unsigned.to_uint_nonnil. }
  apply (f_equal DecimalString.NilZero.int_of_string) in H.
  rewrite !DecimalString.NilZero.isi in H by apply Hnn.
  injection H as H. apply (f_equal Z.of_int) in H.
  now rewrite !DecimalZ.of_to in H.
Qed.

Lemma bigint_toString_eqb a b :
  String.eqb (bigint_toString a) (bigint_toString b) = (a =? b).
Proof.
  destruct (String.eqb_spec (bigint_toString a) (bigint_toString b)) as [E|E];
    destruct (Z.eqb_spec a b) as [F|F]; try reflexivity.
  - apply bigint_toString_inj in E. contradiction.
  - subst. contradiction.
Qed.

(* ================================================================== *)
(** * The order of own keys *)
(* ================================================================== *)

Section KeyOrder.

Lemma insert_by_index_perm key keys :
  Permutation (insert_by_index key keys) (key :: keys).
Proof.
  induction keys as [|k rest IH]; cbn [insert_by_index]; [reflexivity|].
  destruct (index_value key <=? index_value k); [reflexivity|].
  rewrite IH. apply perm_swap.
Qed.

Lemma sort_by_index_perm keys : Permutation (sort_by_index keys) keys.
Proof.
  induction keys as [|k rest IH]; [reflexivity|].
  cbn [sort_by_index fold_right]. rewrite insert_by_index_perm.
  now constructor.
Qed.

Lemma partition_perm {A} (p : A -> bool) (l : list A) :
  Permutation (filter p l ++ filter (fun x => negb (p x)) l) l.
Proof.
  induction l as [|x l IH]; [reflexivity|]. cbn [filter].
  destruct (p x); cbn [negb app].
  - now constructor.
  - rewrite <- Permutation_middle. now constructor.
Qed.

Lemma own_key_order_perm keys : Permutation (own_key_order keys) keys.
Proof.
  unfold own_key_order. rewrite sort_by_index_perm. apply partition_perm.
Qed.

Lemma own_key_order_In key keys : In key (own_key_order keys) <-> In key keys.
Proof.
  split; apply Permutation_in;
    [apply own_key_order_perm|apply Permutation_sym, own_key_order_perm].
Qed.

Lemma own_key_order_NoDup keys : NoDup keys -> NoDup (own_key_order keys).
Proof.
  apply Permutation_NoDup, Permutation_sym, own_key_order_perm.
Qed.

Lemma filter_all {A} (p : A -> bool) (l : list A) :
  (forall x, In x l -> p x = true) -> filter p l = l.
Proof.
  induction l as [|x l IH]; intros H; [reflexivity|]. cbn [filter].
  rewrite (H x) by now left. f_equal. apply IH. intros y Hy. apply H. now right.
Qed.

Lemma filter_none {A} (p : A -> bool) (l : list A) :
  (forall x, In x l -> p x = false) -> filter p l = [].
Proof.
  induction l as [|x l IH]; intros H; [reflexivity|]. cbn [filter].
  rewrite (H x) by now left. apply IH. intros y Hy. apply H. now right.
Qed.

(** Keys that are not array indices are enumerated as inserted. *)
Lemma own_key_order_plain keys :
  (forall key, In key keys -> is_array_index key = false) ->
  own_key_order keys = keys.
Proof.
  intros H. unfold own_key_order.
  rewrite (filter_none is_array_index keys H). cbn [sort_by_index fold_right app].
  apply filter_all. intros key Hin. now rewrite (H key Hin).
Qed.






End KeyOrder.

(* ================================================================== *)
(** * The registry *)
(* ================================================================== *)

Section Registry.
Context {tags : TypeTags}.

(** A load either throws and leaves the loader as it was, or stores the
    schema it returns under the key of the node's id; the schema itself
    does not depend on the loader. *)
Lemma loadDynamic_shape node this :
  loadDynamic node this =
    match fst (loadDynamic node new) with
    | Ok schema =>
        (Ok schema,
         {| schemas := table_set (schemas this)
                         (bigint_toString (Node_id node)) schema |})
    | Throw e => (Throw e, this)
    end.
Proof. unfold loadDynamic. destruct (Node_which node); reflexivity. Qed.

Lemma loadDynamic_struct_result node :
  Node_isStruct node = true ->
  exists schema, fst (loadDynamic node new) = Ok schema
                 /\ id schema = Node_id node.
Proof.
  unfold Node_isStruct, loadDynamic. destruct (Node_which node); try discriminate.
  intros _. eexists. split; reflexivity.
Qed.

Lemma loadDynamic_other_result node :
  Node_isStruct node = false ->
  fst (loadDynamic node new) =
    Throw (NotAStructError (extractDisplayName (Node_displayName node))
                           (Node_id node)).
Proof.
  unfold Node_isStruct, loadDynamic. destruct (Node_which node);
    try discriminate; reflexivity.
Qed.

Lemma get_lookup i this :
  get i this =
    match table_get (schemas this) (bigint_toString i) with
    | Some schema => (Ok schema, this)
    | None => (Throw (SchemaNotFoundError i), this)
    end.
Proof.
  unfold get, bind, schemas_get.
  destruct (table_get (schemas this) (bigint_toString i)); reflexivity.
Qed.

Lemma after_loads_snoc nodes node :
  after_loads (nodes ++ [node]) = snd (loadDynamic node (after_loads nodes)).
Proof. unfold after_loads. now rewrite fold_left_app. Qed.

Lemma after_loads_NoDup nodes :
  NoDup (table_keys (schemas (after_loads nodes))).
Proof.
  induction nodes as [|node nodes IH] using rev_ind; [constructor|].
  rewrite after_loads_snoc, loadDynamic_shape.
  destruct (fst (loadDynamic node new)); simpl; [|exact IH].
  apply table_update_NoDup, IH.
Qed.

(** Every stored schema sits under the key of its own id. *)
Lemma after_loads_keyed nodes key schema :
  In (key, schema) (schemas (after_loads nodes)) ->
  key = bigint_toString (id schema).
Proof.
  induction nodes as [|node nodes IH] using rev_ind; [intros []|].
  rewrite after_loads_snoc, loadDynamic_shape.
  destruct (Node_isStruct node) eqn:Hs.
  - destruct (loadDynamic_struct_result node Hs) as (stored & -> & Hid).
    cbn [snd schemas]. intros H. apply table_update_In in H as [[-> ->]|H].
    + now rewrite Hid.
    + exact (IH H).
  - now rewrite (loadDynamic_other_result node Hs).
Qed.

Lemma lookup_after_loads nodes i :
  (loaded nodes i = false ->
     table_get (schemas (after_loads nodes)) (bigint_toString i) = None) /\
  (loaded nodes i = true ->
     exists schema,
       table_get (schemas (after_loads nodes)) (bigint_toString i) = Some schema
       /\ id schema = i).
Proof.
  induction nodes as [|node nodes IH] using rev_ind.
  - split; [reflexivity|discriminate].
  - unfold loaded in *. rewrite existsb_app. cbn [existsb].
    rewrite orb_false_r, after_loads_snoc, loadDynamic_shape.
    destruct (Node_isStruct node) eqn:Hs.
    + destruct (loadDynamic_struct_result node Hs) as (schema & -> & Hid).
      cbn [snd schemas]. rewrite table_get_set, bigint_toString_eqb.
      cbn [andb]. destruct (Z.eqb_spec (Node_id node) i) as [E|E].
      * rewrite orb_true_r. split; [discriminate|].
        intros _. exists schema. split; [reflexivity|congruence].
      * rewrite orb_false_r. exact IH.
    + rewrite (loadDynamic_other_result node Hs). cbn [snd andb].
      rewrite orb_false_r. exact IH.
Qed.

End Registry.

(* ================================================================== *)
(** * Properties of the registry *)
(* ================================================================== *)

(** C1 (as stated, refuted): the display name of a loaded schema is not
    always the text after the final colon. For a node named "pkg.capnp:"
    that text is empty, yet the stored schema keeps "pkg.capnp:". *)
Lemma displayName_trailing_colon_kept :
  let node := Examples.trailing_colon_node in
  exists schema this',
    loadDynamic (tags := schema_capnp_tags) node new = (Ok schema, this')
    /\ get (Node_id node) this' = (Ok schema, this')
    /\ displayName schema = "pkg.capnp:"
    /\ text_after_final_colon (Node_displayName node) = ""
    /\ displayName schema <> text_after_final_colon (Node_displayName node).
Proof.
  cbv zeta. do 2 eexists. split; [cbv; reflexivity|].
  split; [cbv; reflexivity|]. split; [reflexivity|]. split; [reflexivity|].
  discriminate.
Qed.

(** C1 (amended): for every struct node, [loadDynamic] returns a schema,
    a subsequent [get] with the node's id returns that same schema, and its
    display name is the text after the final colon of the node's display
    name when that text is not empty, and the whole display name
    otherwise. *)
Theorem loadDynamic_get_displayName {tags : TypeTags} (node : Node) (this : State) :
  Node_isStruct node = true ->
  exists schema this',
    loadDynamic node this = (Ok schema, this')
    /\ get (Node_id node) this' = (Ok schema, this')
    /\ displayName schema =
         (if is_empty (text_after_final_colon (Node_displayName node))
          then Node_displayName node
          else text_after_final_colon (Node_displayName node)).
Proof.
  intros Hs. rewrite loadDynamic_shape.
  destruct (loadDynamic_struct_result node Hs) as (schema & E & Hid).
  rewrite E. do 2 eexists. split; [reflexivity|]. split.
  - rewrite get_lookup. cbn [schemas]. rewrite table_get_set, String.eqb_refl.
    reflexivity.
  - rewrite <- extractDisplayName_spec. revert E. unfold loadDynamic.
    destruct (Node_which node); try discriminate.
    cbn. intros [= <-]. reflexivity.
Qed.

Lemma loadDynamic_get_displayName_witness :
  exists schema this',
    loadDynamic (tags := schema_capnp_tags) Examples.bar_node new = (Ok schema, this')
    /\ get 11259375 this' = (Ok schema, this')
    /\ displayName schema = "Foo.Bar".
Proof.
  exact (loadDynamic_get_displayName (tags := schema_capnp_tags)
           Examples.bar_node new eq_refl).
Defined.

(** C2: after two loads of struct nodes with the same id, whatever was
    loaded before, [get] returns exactly the schema that loading the second
    node alone produces (its display name, size and accessor table are
    computed from the second node); the registry holds that one entry under
    the id, and no stored schema with that id is anything else. *)
Theorem loadDynamic_same_id_replaces {tags : TypeTags}
    (history : list Node) (first second : Node) (info : Node_Struct) :
  Node_isStruct first = true ->
  Node_which second = Node_struct info ->
  Node_id first = Node_id second ->
  let this := after_loads (history ++ [first; second]) in
  exists schema,
    get (Node_id second) this = (Ok schema, this)
    /\ fst (loadDynamic second new) = Ok schema
    /\ entries_for this (Node_id second) = [schema]
    /\ (forall stored,
          In stored (table_values (schemas this)) ->
          id stored = Node_id second -> stored = schema)
    /\ displayName schema = extractDisplayName (Node_displayName second)
    /\ size schema = {| dataByteLength := dataWordCount info * 8;
                        pointerLength := pointerCount info |}
    /\ prototype (structCtor schema) =
         fold_left addFieldAccessors (parseFields (fields info))
                   DynamicStruct_prototype.
Proof.
  intros Hfirst Hsecond Hid this.
  assert (Hs : Node_isStruct second = true)
    by (unfold Node_isStruct; now rewrite Hsecond).
  destruct (loadDynamic_struct_result second Hs) as (schema & E & _).
  exists schema.
  assert (Hentries : entries_for this (Node_id second) = [schema]).
  { subst this.
    replace (history ++ [first; second]) with ((history ++ [first]) ++ [second])
      by now rewrite <- app_assoc.
    rewrite after_loads_snoc, loadDynamic_shape, E. cbn [snd].
    unfold entries_for. cbn [schemas]. unfold table_set.
    rewrite table_update_entries by apply after_loads_NoDup. reflexivity. }
  assert (Hstored : forall stored,
             In stored (table_values (schemas this)) ->
             id stored = Node_id second -> stored = schema).
  { intros stored Hin Hsame. unfold table_values in Hin.
    apply in_map_iff in Hin as ([key stored'] & Hsnd & Hin). cbn in Hsnd. subst stored'.
    pose proof (after_loads_keyed _ _ _ Hin) as Hkey.
    assert (Hmem : In stored (entries_for this (Node_id second))).
    { unfold entries_for. apply in_map_iff. exists (key, stored).
      split; [reflexivity|]. apply filter_In. split; [exact Hin|].
      cbn [fst]. rewrite Hkey, Hsame. apply String.eqb_refl. }
    rewrite Hentries in Hmem. destruct Hmem as [<-|[]]. reflexivity. }
  split; [|split; [exact E|split; [exact Hentries|split; [exact Hstored|]]]].
  - subst this.
    replace (history ++ [first; second]) with ((history ++ [first]) ++ [second])
      by now rewrite <- app_assoc.
    rewrite after_loads_snoc, loadDynamic_shape, E. cbn [snd].
    rewrite get_lookup. cbn [schemas].
    now rewrite table_get_set, String.eqb_refl.
  - revert E. unfold loadDynamic. rewrite Hsecond. cbn.
    intros [= <-]. repeat split.
Qed.

Lemma loadDynamic_same_id_replaces_witness :
  let this := after_loads (tags := schema_capnp_tags)
                ([Examples.void_node] ++ [Examples.bar_node; Examples.bar_node']) in
  exists schema,
    get 11259375 this = (Ok schema, this)
    /\ Examples.loaded_schema Examples.bar_node' = Some schema
    /\ entries_for this 11259375 = [schema]
    /\ displayName schema = "Baz"
    /\ Object_keys (prototype (structCtor schema)) = ["on"].
Proof.
  destruct (loadDynamic_same_id_replaces (tags := schema_capnp_tags)
              [Examples.void_node] Examples.bar_node Examples.bar_node'
              _ eq_refl eq_refl eq_refl)
    as (schema & Hget & Hload & Hentries & _ & Hname & Hsize & Hproto).
  exists schema. repeat split.
  - exact Hget.
  - unfold Examples.loaded_schema. now rewrite Hload.
  - exact Hentries.
  - exact Hname.
  - rewrite Hproto. reflexivity.
Defined.

(** C3: for every node that is not a struct, [loadDynamic] throws the
    not-a-struct error and the loader it leaves behind is the loader it
    found: every [get] and [getByName] answers as before the call. *)
Theorem loadDynamic_not_a_struct {tags : TypeTags} (node : Node) (this : State) :
  Node_isStruct node = false ->
  exists e this',
    loadDynamic node this = (Throw e, this')
    /\ e = NotAStructError (extractDisplayName (Node_displayName node)) (Node_id node)
    /\ this' = this
    /\ schemas this' = schemas this
    /\ (forall i, get i this' = get i this)
    /\ (forall display, getByName display this' = getByName display this).
Proof.
  intros Hs. rewrite loadDynamic_shape, (loadDynamic_other_result node Hs).
  do 2 eexists. repeat split.
Qed.

Lemma loadDynamic_not_a_struct_witness :
  let this := after_loads (tags := schema_capnp_tags) [Examples.bar_node] in
  loadDynamic (tags := schema_capnp_tags) Examples.enum_node this
    = (Throw (NotAStructError "Color" 5), this).
Proof.
  destruct (loadDynamic_not_a_struct (tags := schema_capnp_tags)
              Examples.enum_node
              (after_loads (tags := schema_capnp_tags) [Examples.bar_node]) eq_refl)
    as (e & this' & Hload & He & Hthis & _).
  cbv zeta. rewrite Hload, He, Hthis. reflexivity.
Defined.

Example get_after_sample_loads :
  let this := after_loads (tags := schema_capnp_tags)
                [Examples.bar_node; Examples.enum_node] in
  (exists schema, get 11259375 this = (Ok schema, this)
                  /\ displayName schema = "Foo.Bar"
                  /\ capnp_id (_capnp (structCtor schema)) = "abcdef")
  /\ get 5 this = (Throw (SchemaNotFoundError 5), this)
  /\ fst (getByName "Color" this) = Ok None.
Proof.
  cbv zeta. split; [eexists; split; [cbv; reflexivity|split; reflexivity]|].
  repeat split.
Qed.

(** C4: on a fresh loader every [get] throws the not-found error; after
    any sequence of [loadDynamic] calls, [get id] throws the not-found
    error (and returns no schema) when no call loaded a struct node with
    that id, and returns a schema with that id when some call did. The
    loader is left as it was in each case. *)
Theorem get_found_iff_loaded {tags : TypeTags} (nodes : list Node) (i : Z) :
  get i new = (Throw (SchemaNotFoundError i), new)
  /\ (loaded nodes i = false ->
        get i (after_loads nodes)
          = (Throw (SchemaNotFoundError i), after_loads nodes))
  /\ (loaded nodes i = true ->
        exists schema,
          get i (after_loads nodes) = (Ok schema, after_loads nodes)
          /\ id schema = i).
Proof.
  destruct (lookup_after_loads nodes i) as [Hnone Hsome].
  split; [reflexivity|]. split; intros H; rewrite get_lookup.
  - now rewrite (Hnone H).
  - destruct (Hsome H) as (schema & -> & Hid). eauto.
Qed.

(* ================================================================== *)
(** * Classification and field extraction *)
(* ================================================================== *)

Lemma schema_capnp_tags_injective : tags_injective schema_capnp_tags.
Proof. intros a b H. destruct a; destruct b; (reflexivity || discriminate H). Qed.

Lemma schema_capnp_unknown_99 : unknown_tag (tags := schema_capnp_tags) 99.
Proof. intros w. destruct w; discriminate. Qed.

Section Classifier.
Context {tags : TypeTags}.

Lemma parseFields_from (fieldsList : list Field) (acc : list FieldInfo) :
  fold_left
    (fun fields field =>
       match Field_which field with
       | Field_group _ => fields
       | Field_slot slot => fields ++ [slotFieldInfo (Field_name field) slot]
       end) fieldsList acc
  = acc ++ slot_descriptors fieldsList.
Proof.
  revert acc. induction fieldsList as [|field rest IH]; intros acc; simpl.
  - now rewrite app_nil_r.
  - rewrite IH. destruct (Field_which field); simpl; [|reflexivity].
    now rewrite <- app_assoc.
Qed.

Lemma slotFieldInfo_name field_name slot :
  name (slotFieldInfo field_name slot) = field_name
  /\ offset (slotFieldInfo field_name slot) = Slot_offset slot
  /\ type (slotFieldInfo field_name slot)
       = typeToString (Type_which (Slot_type slot)).
Proof.
  unfold slotFieldInfo. cbn.
  destruct (Type_which (Slot_type slot) =? Type_STRUCT);
    destruct (Type_which (Slot_type slot) =? Type_LIST); repeat split.
Qed.

Lemma slotFieldInfo_isPrimitive field_name slot :
  isPrimitive (slotFieldInfo field_name slot)
    = isPrimitiveType (Type_which (Slot_type slot)).
Proof.
  unfold slotFieldInfo. cbn.
  destruct (Type_which (Slot_type slot) =? Type_STRUCT);
    destruct (Type_which (Slot_type slot) =? Type_LIST); reflexivity.
Qed.

Lemma unknown_tag_eqb typeWhich w :
  unknown_tag typeWhich -> (typeWhich =? Type_tag w) = false.
Proof. intros H. apply Z.eqb_neq, H. Qed.

Lemma typeToString_label_cases typeWhich :
  (exists w, typeWhich = Type_tag w /\ In (typeToString typeWhich) labels)
  \/ (typeToString typeWhich = "unknown"
      /\ isPointerType typeWhich = false
      /\ isPrimitiveType typeWhich = false).
Proof.
  unfold typeToString, isPointerType, isPrimitiveType.
  repeat match goal with
         | |- context [typeWhich =? Type_tag ?w] =>
             destruct (Z.eqb_spec typeWhich (Type_tag w));
             [left; exists w; split; [assumption|simpl; tauto]|]
         end.
  right. repeat split.
Qed.

Hypothesis tags_inj : tags_injective tags.

Lemma tag_eqb a b : (Type_tag a =? Type_tag b) = WireType_eqb a b.
Proof.
  destruct (Z.eqb_spec (Type_tag a) (Type_tag b)) as [E|E].
  - apply tags_inj in E. subst. now destruct b.
  - destruct a; destruct b; try reflexivity; now contradiction E.
Qed.

Lemma classify_named w :
  typeToString (Type_tag w) = label w
  /\ isPointerType (Type_tag w) = is_pointer w
  /\ isPrimitiveType (Type_tag w) = is_primitive w.
Proof.
  unfold typeToString, isPointerType, isPrimitiveType.
  rewrite !tag_eqb. destruct w; repeat split.
Qed.

Lemma isPrimitiveType_named typeWhich :
  isPrimitiveType typeWhich = true ->
  exists w, is_primitive w = true /\ typeWhich = Type_tag w.
Proof.
  unfold isPrimitiveType. rewrite !orb_true_iff, !Z.eqb_eq.
  intuition (subst; eexists; split; [|reflexivity]; reflexivity).
Qed.

(** The descriptor of a slot field whose type is a named tag. *)
Lemma slotFieldInfo_named field_name k ty w :
  Type_which ty = Type_tag w ->
  slotFieldInfo field_name {| Slot_offset := k; Slot_type := ty |} =
    {| name := field_name;
       offset := k;
       type := label w;
       isPointer := is_pointer w;
       isPrimitive := is_primitive w;
       isText := WireType_eqb w TEXT;
       isData := WireType_eqb w DATA;
       isList := WireType_eqb w LIST;
       isStruct := WireType_eqb w STRUCT;
       structTypeId :=
         if WireType_eqb w STRUCT then Some (Type_struct_typeId ty) else None;
       listElementType :=
         if WireType_eqb w LIST
         then Some (typeToString (Type_list_elementType_which ty)) else None |}.
Proof.
  intros H. unfold slotFieldInfo. cbn [Slot_type Slot_offset]. rewrite H.
  destruct (classify_named w) as (-> & -> & ->). rewrite !tag_eqb.
  cbn [isStruct isList]. destruct w; reflexivity.
Qed.

End Classifier.

(* ================================================================== *)
(** * Fixed-width integers in a data section *)
(* ================================================================== *)

Section WireFacts.
Import Wire.

Lemma le_encode_length n v : List.length (le_encode n v) = n.
Proof. revert v. induction n; intros v; simpl; [reflexivity|now rewrite IHn]. Qed.

Lemma le_decode_encode n v : le_decode (le_encode n v) = v mod 256 ^ Z.of_nat n.
Proof.
  revert v. induction n as [|n IH]; intros v.
  - simpl. now rewrite Z.mod_1_r.
  - cbn [le_encode le_decode]. rewrite IH, Nat2Z.inj_succ, Z.pow_succ_r by lia.
    rewrite Z.rem_mul_r; [reflexivity|lia|]. apply Z.pow_pos_nonneg; lia.
Qed.

Lemma splice_length off bytes data :
  0 <= off -> off + Z.of_nat (List.length bytes) <= Z.of_nat (List.length data) ->
  List.length (splice off bytes data) = List.length data.
Proof.
  intros H0 H1. unfold splice.
  rewrite !length_app, length_firstn, length_skipn. lia.
Qed.

Lemma slice_splice off bytes data :
  0 <= off -> off + Z.of_nat (List.length bytes) <= Z.of_nat (List.length data) ->
  slice off (List.length bytes) (splice off bytes data) = bytes.
Proof.
  intros H0 H1. unfold slice, splice.
  assert (Hlen : List.length (firstn (Z.to_nat off) data) = Z.to_nat off)
    by (rewrite length_firstn; lia).
  rewrite skipn_app, Hlen, Nat.sub_diag, skipn_all2 by lia.
  cbn [skipn app]. rewrite firstn_app, Nat.sub_diag, firstn_all.
  cbn [firstn]. apply app_nil_r.
Qed.

Lemma to_signed_wrap width v :
  (0 < width)%nat ->
  - 2 ^ (8 * Z.of_nat width - 1) <= v < 2 ^ (8 * Z.of_nat width - 1) ->
  to_signed width (v mod 2 ^ (8 * Z.of_nat width)) = v.
Proof.
  intros Hw Hv. unfold to_signed.
  set (m := 2 ^ (8 * Z.of_nat width - 1)) in *.
  assert (Hm : 2 ^ (8 * Z.of_nat width) = 2 * m).
  { unfold m. rewrite <- Z.pow_succ_r by lia. f_equal. lia. }
  assert (0 < m) by (apply Z.pow_pos_nonneg; lia).
  rewrite Hm. destruct (Z_lt_le_dec v 0) as [Hneg|Hpos].
  - rewrite <- (Z_mod_plus_full v 1 (2 * m)), Z.mod_small by lia.
    destruct (Z.ltb_spec (v + 1 * (2 * m)) m); lia.
  - rewrite Z.mod_small by lia. destruct (Z.ltb_spec v m); lia.
Qed.

(** Storing an integer that fits the width and loading it from the same
    in-bounds offset gives the integer back. *)
Lemma getInt_setInt width byteOffset v data :
  (0 < width)%nat ->
  - 2 ^ (8 * Z.of_nat width - 1) <= v < 2 ^ (8 * Z.of_nat width - 1) ->
  checkDataBounds byteOffset (Z.of_nat width) data = true ->
  exists data',
    setInt width byteOffset v data = Ok data'
    /\ getInt width byteOffset data' = Ok v
    /\ List.length data' = List.length data.
Proof.
  intros Hw Hv Hb. unfold setInt, getInt, getUint. rewrite Hb.
  eexists. split; [reflexivity|].
  unfold checkDataBounds in *. apply andb_true_iff in Hb as [H0 H1].
  apply Z.leb_le in H0, H1.
  set (bytes := le_encode width (v mod 2 ^ (8 * Z.of_nat width))).
  assert (Hlen : List.length bytes = width) by apply le_encode_length.
  rewrite splice_length by (rewrite ?Hlen; lia).
  replace (0 <=? byteOffset) with true by (symmetry; now apply Z.leb_le).
  replace (byteOffset + Z.of_nat width <=? Z.of_nat (List.length data)) with true
    by (symmetry; now apply Z.leb_le).
  split; [|reflexivity]. cbn [andb rmap]. f_equal.
  assert (Hs : slice byteOffset width (splice byteOffset bytes data) = bytes).
  { rewrite <- Hlen. apply slice_splice; rewrite ?Hlen; lia. }
  rewrite Hs. unfold bytes. rewrite le_decode_encode.
  replace (256 ^ Z.of_nat width) with (2 ^ (8 * Z.of_nat width))
    by (rewrite Z.pow_mul_r by lia; reflexivity).
  rewrite Z.mod_mod by (apply Z.pow_nonzero; lia).
  now apply to_signed_wrap.
Qed.

End WireFacts.

(* ================================================================== *)
(** * Properties of accessor synthesis and field extraction *)
(* ================================================================== *)

(** C5: every primitive field descriptor gets a getter and a setter that
    address a position fixed by the schema alone: the wire offset itself, as
    a bit index, for bool, and the wire offset times the byte width of the
    type (1, 2, 4 or 8) for the other primitives. An int32 field at wire
    offset k reads and writes at byte offset k * 4, and a value in int32
    range written through its setter into a data section that holds those
    four bytes is read back unchanged through its getter. *)
Theorem primitive_accessor_positions {tags : TypeTags} :
  tags_injective tags ->
  (forall field_name k ty,
     let field := slotFieldInfo field_name {| Slot_offset := k; Slot_type := ty |} in
     isPrimitive field = true ->
     exists w,
       is_primitive w = true
       /\ Type_which ty = Type_tag w
       /\ fieldDescriptor field =
            accessor_descriptor (reader w (position w k))
                                (Some (writer w (position w k))))
  /\ (forall field_name k ty (Heap : Type) (utils : External Heap)
             (this : View Heap) (v : Z),
        Type_which ty = Type_INT32 ->
        in_int32_range v ->
        Wire.checkDataBounds (k * 4) 4 (data this) = true ->
        let field := slotFieldInfo field_name {| Slot_offset := k; Slot_type := ty |} in
        fieldDescriptor field =
          accessor_descriptor (utils_getInt32 (k * 4)) (Some (utils_setInt32 (k * 4)))
        /\ exists this',
             run_setter utils (utils_setInt32 (k * 4)) (VNumber v) this = Ok this'
             /\ run_getter utils (utils_getInt32 (k * 4)) this' = Ok (VNumber v)).
Proof.
  intros Hinj. split.
  - intros field_name k ty field Hprim.
    unfold field in Hprim. rewrite slotFieldInfo_isPrimitive in Hprim.
    destruct (isPrimitiveType_named _ Hprim) as (w & Hw & E).
    exists w. split; [exact Hw|]. split; [exact E|].
    unfold field. rewrite (slotFieldInfo_named Hinj field_name k ty w E).
    destruct w; try discriminate Hw; reflexivity.
  - intros field_name k ty Heap utils this v E Hv Hb field. split.
    + unfold field. rewrite (slotFieldInfo_named Hinj field_name k ty INT32 E).
      reflexivity.
    + destruct (getInt_setInt 4 (k * 4) v (data this)) as (data' & Hset & Hget & _);
        [lia|exact Hv|exact Hb|].
      exists (with_data this data'). cbn [run_setter run_getter store_number].
      rewrite Hset. cbn [rmap with_data data]. rewrite Hget. split; reflexivity.
Qed.

Lemma primitive_accessor_positions_witness :
  (exists w,
     is_primitive w = true
     /\ fieldDescriptor
          (slotFieldInfo (tags := schema_capnp_tags) "on"
             {| Slot_offset := 3; Slot_type := Examples.type_of 1 |})
        = accessor_descriptor (reader w (position w 3))
                              (Some (writer w (position w 3))))
  /\ exists this',
       run_setter Examples.opaque_pointers (utils_setInt32 (1 * 4)) (VNumber (-5))
                  (Examples.zeroed 8) = Ok this'
       /\ run_getter Examples.opaque_pointers (utils_getInt32 (1 * 4)) this'
          = Ok (VNumber (-5)).
Proof.
  destruct (primitive_accessor_positions (tags := schema_capnp_tags)
              schema_capnp_tags_injective) as [Hpos Hround].
  split.
  - destruct (Hpos "on" 3 (Examples.type_of 1) eq_refl) as (w & Hw & _ & Hd).
    exists w. split; assumption.
  - refine (proj2 (Hround "count" 1 (Examples.type_of 4) unit
                     Examples.opaque_pointers (Examples.zeroed 8) (-5)
                     eq_refl _ eq_refl)).
    unfold in_int32_range. lia.
Defined.

Lemma fieldDescriptor_enumerable field :
  descriptor_enumerable (fieldDescriptor field) = true.
Proof.
  unfold fieldDescriptor.
  destruct (isPrimitive field), (isText field), (isData field),
    (isList field), (isStruct field); reflexivity.
Qed.

(** C6: accessor synthesis per pointer kind. A text field gets a getter
    and a setter at its pointer-slot index; a data field a getter only; a
    list or struct field a getter only, the raw pointer read; no setter is
    written into the descriptor of a data, list or struct field. Defining
    the descriptor on a prototype that has no accessor of that name yet
    yields exactly that getter and setter. *)
Theorem pointer_field_accessors {tags : TypeTags} :
  tags_injective tags ->
  forall field_name k ty,
    let field := slotFieldInfo field_name {| Slot_offset := k; Slot_type := ty |} in
    (Type_which ty = Type_TEXT ->
       fieldDescriptor field =
         accessor_descriptor (utils_getText k) (Some (utils_setText k)))
    /\ (Type_which ty = Type_DATA ->
          fieldDescriptor field = accessor_descriptor (utils_getData k) None)
    /\ (Type_which ty = Type_LIST ->
          fieldDescriptor field = accessor_descriptor (utils_getPointer k) None)
    /\ (Type_which ty = Type_STRUCT ->
          fieldDescriptor field = accessor_descriptor (utils_getPointer k) None)
    /\ (forall prototype,
          not_an_accessor prototype field_name = true ->
          table_get (addFieldAccessors prototype field) field_name =
            Some (AccessorProperty (descriptor_get (fieldDescriptor field))
                                   (descriptor_set (fieldDescriptor field))
                                   true)).
Proof.
  intros Hinj field_name k ty field.
  repeat split; try (intros E; unfold field;
    rewrite (slotFieldInfo_named Hinj field_name k ty _ E); reflexivity).
  intros prototype Hfresh. unfold addFieldAccessors, defineProperty.
  destruct (slotFieldInfo_name field_name {| Slot_offset := k; Slot_type := ty |})
    as (Hname & _). fold field in Hname. rewrite Hname.
  rewrite table_get_update, String.eqb_refl, fieldDescriptor_enumerable.
  unfold not_an_accessor in Hfresh.
  destruct (table_get prototype field_name) as [[]|]; try discriminate Hfresh;
    reflexivity.
Qed.

Lemma pointer_field_accessors_witness :
  table_get
    (addFieldAccessors DynamicStruct_prototype
       (slotFieldInfo (tags := schema_capnp_tags) "label"
          {| Slot_offset := 0; Slot_type := Examples.type_of 12 |}))
    "label"
  = Some (AccessorProperty (Some (utils_getText 0)) (Some (utils_setText 0)) true).
Proof.
  destruct (pointer_field_accessors (tags := schema_capnp_tags)
              schema_capnp_tags_injective "label" 0 (Examples.type_of 12))
    as (Htext & _ & _ & _ & Hproto).
  rewrite (Hproto DynamicStruct_prototype eq_refl), (Htext eq_refl).
  reflexivity.
Defined.

(** Two slot fields of one name: the second definition replaces the getter
    in place; its descriptor has no setter, so the accessor keeps the setter
    the first one brought. *)
Example duplicate_name_redefinition :
  prototype
    (createDynamicStruct "1" "S" {| dataByteLength := 0; pointerLength := 2 |}
       (parseFields (tags := schema_capnp_tags)
          [Examples.slot_field "x" 0 12; Examples.slot_field "x" 1 13]))
  = DynamicStruct_prototype
      ++ [("x", AccessorProperty (Some (utils_getData 1))
                                 (Some (utils_setText 0)) true)].
Proof. reflexivity. Qed.

(** C7: the classifier is total: every numeric tag gets one of the twenty
    labels. A tag outside the named wire types gets the label "unknown"
    with both the is-pointer and the is-primitive facet false, and a field
    of such a type gets the raw-pointer getter and no setter. *)
Theorem typeToString_total_unknown {tags : TypeTags} (typeWhich : Z) :
  In (typeToString typeWhich) labels
  /\ (unknown_tag typeWhich ->
        typeToString typeWhich = "unknown"
        /\ isPointerType typeWhich = false
        /\ isPrimitiveType typeWhich = false
        /\ forall field_name k ty,
             Type_which ty = typeWhich ->
             let field :=
               slotFieldInfo field_name {| Slot_offset := k; Slot_type := ty |} in
             type field = "unknown"
             /\ isPointer field = false
             /\ isPrimitive field = false
             /\ fieldDescriptor field =
                  accessor_descriptor (utils_getPointer k) None).
Proof.
  split.
  - destruct (typeToString_label_cases typeWhich) as [(w & _ & H)|(-> & _)];
      [exact H|simpl; tauto].
  - intros Hu.
    assert (Hs : typeToString typeWhich = "unknown"
                 /\ isPointerType typeWhich = false
                 /\ isPrimitiveType typeWhich = false).
    { unfold typeToString, isPointerType, isPrimitiveType.
      rewrite !(unknown_tag_eqb typeWhich) by exact Hu. repeat split. }
    destruct Hs as (Hlabel & Hptr & Hprim).
    repeat split; try assumption;
      subst typeWhich; unfold slotFieldInfo; cbn [Slot_type Slot_offset];
      rewrite ?Hlabel, ?Hptr, ?Hprim, !(unknown_tag_eqb (Type_which ty)) by exact Hu;
      reflexivity.
Qed.

Lemma typeToString_total_unknown_witness :
  typeToString (tags := schema_capnp_tags) 99 = "unknown"
  /\ fieldDescriptor
       (slotFieldInfo (tags := schema_capnp_tags) "later"
          {| Slot_offset := 2; Slot_type := Examples.type_of 99 |})
     = accessor_descriptor (utils_getPointer 2) None.
Proof.
  destruct (typeToString_total_unknown (tags := schema_capnp_tags) 99)
    as [_ Hunknown].
  destruct (Hunknown schema_capnp_unknown_99) as (Hlabel & _ & _ & Hfield).
  split; [exact Hlabel|].
  exact (proj2 (proj2 (proj2 (Hfield "later" 2 (Examples.type_of 99) eq_refl)))).
Defined.

(** A group between slots is skipped; a struct field records the type id
    it refers to and a list field the label of its element type. *)
Example parseFields_sample :
  map (fun f => (name f, offset f, type f, structTypeId f, listElementType f))
      (parseFields (tags := schema_capnp_tags)
         [Examples.typed_field "first" 0 (Examples.struct_type 77);
          Examples.group_field "choice" 5;
          Examples.typed_field "items" 1 (Examples.list_type 4);
          Examples.slot_field "first" 2 6])
  = [("first", 0, "struct", Some 77, None);
     ("items", 1, "list", None, Some "int32");
     ("first", 2, "uint8", None, None)].
Proof. reflexivity. Qed.

(** C8: field extraction walks the field list in declaration order and
    yields one descriptor per slot field and none for the other fields, in
    the order of declaration, names kept as they are (duplicates included);
    each descriptor carries the field's name and wire offset, the nested
    struct's type id when the type is struct, and the label of the element
    type when the type is list. *)
Theorem parseFields_slot_descriptors {tags : TypeTags} (fieldsList : list Field) :
  parseFields fieldsList = slot_descriptors fieldsList
  /\ (forall before after,
        fieldsList = before ++ after ->
        parseFields fieldsList = parseFields before ++ parseFields after)
  /\ map name (parseFields fieldsList)
       = map Field_name (filter Field_isSlot fieldsList)
  /\ List.length (parseFields fieldsList)
       = List.length (filter Field_isSlot fieldsList)
  /\ (forall field_name slot,
        let field := slotFieldInfo field_name slot in
        name field = field_name
        /\ offset field = Slot_offset slot
        /\ type field = typeToString (Type_which (Slot_type slot))
        /\ (Type_which (Slot_type slot) = Type_STRUCT ->
              structTypeId field = Some (Type_struct_typeId (Slot_type slot)))
        /\ (Type_which (Slot_type slot) = Type_LIST ->
              listElementType field =
                Some (typeToString (Type_list_elementType_which (Slot_type slot))))).
Proof.
  assert (Hflat : forall l, parseFields l = slot_descriptors l).
  { intros l. unfold parseFields. now rewrite parseFields_from. }
  split; [apply Hflat|]. split; [|split; [|split]].
  - intros before after ->. rewrite !Hflat. unfold slot_descriptors.
    apply flat_map_app.
  - rewrite Hflat. induction fieldsList as [|field rest IH]; [reflexivity|].
    unfold Field_isSlot in *. cbn [slot_descriptors flat_map filter].
    destruct (Field_which field); cbn [app map]; [|exact IH].
    f_equal; [|exact IH]. apply slotFieldInfo_name.
  - rewrite Hflat. induction fieldsList as [|field rest IH]; [reflexivity|].
    unfold Field_isSlot in *. cbn [slot_descriptors flat_map filter].
    destruct (Field_which field); cbn [app List.length]; [|exact IH].
    f_equal. exact IH.
  - intros field_name slot field.
    destruct (slotFieldInfo_name field_name slot) as (H1 & H2 & H3).
    repeat split; try assumption; intros E; unfold field, slotFieldInfo;
      cbn; rewrite E, ?Z.eqb_refl; cbn;
      destruct (Type_LIST =? Type_STRUCT); destruct (Type_STRUCT =? Type_LIST);
      reflexivity.
Qed.

(* ================================================================== *)
(** * Properties of the plain-object projection *)
(* ================================================================== *)

Section ProjectionFacts.
Context {Heap : Type} (utils : External Heap) (struct : Struct Heap).

Lemma toObject_step_skip obj key :
  projected (get_property utils struct key) = None ->
  toObject_step utils struct obj key = obj.
Proof.
  unfold toObject_step, projected.
  destruct (get_property utils struct key) as [value|e]; [|discriminate].
  now destruct (is_function value || is_undefined value).
Qed.

Lemma toObject_step_get obj k key :
  table_get (toObject_step utils struct obj k) key =
    if String.eqb k key
    then match recorded k (get_property utils struct k) with
         | Some v => Some v
         | None => table_get obj key
         end
    else table_get obj key.
Proof.
  unfold toObject_step, recorded, projected, plain_assign.
  destruct (String.eqb k "__proto__").
  - destruct (get_property utils struct k) as [value|e];
      [destruct (is_function value || is_undefined value)|];
      now destruct (String.eqb k key).
  - destruct (get_property utils struct k) as [value|e].
    + destruct (is_function value || is_undefined value).
      * now destruct (String.eqb k key).
      * apply table_get_set.
    + apply table_get_set.
Qed.

Lemma toObject_fold_get keys obj key :
  table_get (fold_left (toObject_step utils struct) keys obj) key =
    if in_dec string_dec key keys
    then match recorded key (get_property utils struct key) with
         | Some v => Some v
         | None => table_get obj key
         end
    else table_get obj key.
Proof.
  revert obj. induction keys as [|k keys IH]; intros obj; [reflexivity|].
  cbn [fold_left]. rewrite IH, toObject_step_get.
  destruct (String.eqb_spec k key) as [->|Hne].
  - destruct (in_dec string_dec key (key :: keys)) as [_|Hn];
      [|exfalso; apply Hn; now left].
    destruct (in_dec string_dec key keys);
      now destruct (recorded key (get_property utils struct key)).
  - destruct (in_dec string_dec key keys) as [Hin|Hn];
      destruct (in_dec string_dec key (k :: keys)) as [Hin'|Hn'];
      try reflexivity.
    + exfalso. apply Hn'. now right.
    + destruct Hin' as [E|Hin']; [congruence|contradiction].
Qed.


Lemma plain_assign_length obj key value :
  (List.length (plain_assign obj key value) <= S (List.length obj))%nat.
Proof.
  unfold plain_assign. destruct (String.eqb key "__proto__"); [lia|].
  apply table_length_update.
Qed.


Lemma toObject_step_length obj key :
  (List.length (toObject_step utils struct obj key) <= S (List.length obj))%nat.
Proof.
  unfold toObject_step. destruct (get_property utils struct key) as [value|e].
  - destruct (is_function value || is_undefined value); [lia|].
    apply plain_assign_length.
  - apply plain_assign_length.
Qed.

Lemma toObject_fold_length keys obj :
  (List.length (fold_left (toObject_step utils struct) keys obj)
   <= List.length obj + List.length keys)%nat.
Proof.
  revert obj. induction keys as [|k keys IH]; intros obj; cbn [fold_left List.length];
    [lia|].
  specialize (IH (toObject_step utils struct obj k)).
  pose proof (toObject_step_length obj k). lia.
Qed.

Lemma toObject_fold_shorter keys obj key :
  In key keys ->
  projected (get_property utils struct key) = None ->
  (List.length (fold_left (toObject_step utils struct) keys obj)
   < List.length obj + List.length keys)%nat.
Proof.
  revert obj. induction keys as [|k keys IH]; intros obj Hin Hskip; [contradiction|].
  cbn [fold_left List.length].
  destruct (string_dec k key) as [->|Hne].
  - rewrite (toObject_step_skip obj key Hskip).
    pose proof (toObject_fold_length keys obj). lia.
  - destruct Hin as [E|Hin]; [contradiction|].
    specialize (IH (toObject_step utils struct obj k) Hin Hskip).
    pose proof (toObject_step_length obj k). lia.
Qed.

End ProjectionFacts.

Lemma table_get_In {V} (t : Table V) key v :
  NoDup (table_keys t) -> In (key, v) t -> table_get t key = Some v.
Proof.
  induction t as [|[k0 v0] rest IH]; simpl; intros Hnd Hin; [contradiction|].
  apply NoDup_cons_iff in Hnd as [Hnotin Hnd].
  destruct Hin as [[= -> ->]|Hin].
  - now rewrite String.eqb_refl.
  - destruct (String.eqb_spec k0 key) as [->|_]; [|now apply IH].
    exfalso. apply Hnotin. apply (in_map fst) in Hin. exact Hin.
Qed.

(** What [toObject] holds under each key. *)
Lemma toObject_get {Heap : Type} (utils : External Heap) (struct : Struct Heap)
    (schema : LoadedSchema) (key : string) :
  table_get (toObject utils struct schema) key =
    if in_dec string_dec key (Object_keys (proto struct))
    then recorded key (get_property utils struct key)
    else None.
Proof.
  unfold toObject. rewrite toObject_fold_get.
  destruct (in_dec string_dec key (Object_keys (proto struct))); [|reflexivity].
  now destruct (recorded key (get_property utils struct key)).
Qed.

(** C9 (where the code departs from it): a field whose read fails is not
    always recorded as null. For a schema with a field named "__proto__",
    that name is among the keys [toObject] goes through and its read
    throws, yet the write of null under that key lands on the setter the
    plain result object inherits, and the result holds the other field only
    and no entry, null or other, under "__proto__". *)
Theorem toObject_drops_proto_key :
  exists schema,
    Examples.loaded_schema Examples.proto_key_node = Some schema
    /\ let struct := Examples.instance schema (Examples.zeroed 8) in
       In "__proto__" (Object_keys (proto struct))
       /\ get_property Examples.failing_pointers struct "__proto__"
          = Throw RangeError
       /\ toObject Examples.failing_pointers struct schema = [("a", VNumber 0)]
       /\ table_get (toObject Examples.failing_pointers struct schema) "__proto__"
          = None.
Proof.
  eexists. split; [reflexivity|]. cbv zeta.
  split; [right; left; reflexivity|]. repeat split.
Qed.

(** A read that fails in the middle: the int32 field lies outside a
    four-byte data section; the fields around it are still projected. *)
Example toObject_partial_failure :
  exists schema,
    Examples.loaded_schema
      (Examples.struct_node 1 "m:S"
         [Examples.slot_field "a" 0 12; Examples.slot_field "n" 1 4;
          Examples.slot_field "b" 1 13]) = Some schema
    /\ toObject Examples.opaque_pointers
         (Examples.instance schema (Examples.zeroed 4)) schema
       = [("a", VObject 0); ("n", VNull); ("b", VObject 1)].
Proof. eexists. split; reflexivity. Qed.

(** C10 (as stated, refuted): a void field is not left out of the
    projection. Its accessor is the raw-pointer getter, not a getter that
    returns undefined: with a pointer layer that resolves the slot the
    field is projected with the pointer as its value, and with one that
    throws it is projected as null. *)
Lemma void_field_projected :
  exists schema,
    Examples.loaded_schema Examples.void_node = Some schema
    /\ table_get (prototype (structCtor schema)) "nothing"
       = Some (AccessorProperty (Some (utils_getPointer 0)) None true)
    /\ toObject Examples.opaque_pointers
         (Examples.instance schema (Examples.zeroed 16)) schema
       = [("nothing", VObject 0)]
    /\ toObject Examples.failing_pointers
         (Examples.instance schema (Examples.zeroed 16)) schema
       = [("nothing", VNull)]
    /\ In "nothing"
         (table_keys (toObject Examples.opaque_pointers
                        (Examples.instance schema (Examples.zeroed 16)) schema)).
Proof.
  eexists. split; [reflexivity|]. split; [reflexivity|].
  split; [reflexivity|]. split; [reflexivity|]. left. reflexivity.
Qed.

(** C10 (amended): [toObject] leaves out every key whose read yields
    undefined: the key is absent from the result, with no null marker, and
    the result then has strictly fewer entries than the prototype has
    enumerable keys, even when no read fails. Fields extracted by the loader
    never get the getter that returns undefined; a void field gets the
    raw-pointer getter and no setter. *)
Theorem toObject_omits_undefined {tags : TypeTags} {Heap : Type}
    (utils : External Heap) (struct : Struct Heap) (schema : LoadedSchema) :
  tags_injective tags ->
  let obj := toObject utils struct schema in
  (forall key,
     get_property utils struct key = Ok VUndefined ->
     table_get obj key = None
     /\ ~ In key (table_keys obj)
     /\ (In key (Object_keys (proto struct)) ->
           (List.length obj < List.length (Object_keys (proto struct)))%nat))
  /\ (forall field_name k ty,
        let field :=
          slotFieldInfo field_name {| Slot_offset := k; Slot_type := ty |} in
        descriptor_get (fieldDescriptor field) <> Some return_undefined
        /\ (Type_which ty = Type_VOID ->
              fieldDescriptor field = accessor_descriptor (utils_getPointer k) None)).
Proof.
  intros Hinj obj. split.
  - intros key Hundef.
    assert (Hnone : table_get obj key = None).
    { unfold obj. rewrite toObject_get, Hundef. unfold recorded.
      destruct (String.eqb key "__proto__");
        now destruct (in_dec string_dec key (Object_keys (proto struct))). }
    split; [exact Hnone|]. split.
    + intros Hin. apply table_get_keys in Hin. contradiction.
    + intros Hk. unfold obj, toObject.
      apply (toObject_fold_shorter utils struct _ [] key Hk).
      now rewrite Hundef.
  - intros field_name k ty field. split.
    + destruct (isPrimitive field) eqn:Hprim.
      * pose proof Hprim as Hp. unfold field in Hp.
        rewrite slotFieldInfo_isPrimitive in Hp.
        destruct (isPrimitiveType_named _ Hp) as (w & Hw & E).
        unfold field. rewrite (slotFieldInfo_named Hinj field_name k ty w E).
        destruct w; try discriminate Hw; discriminate.
      * unfold fieldDescriptor. rewrite Hprim.
        destruct (isText field), (isData field), (isList field), (isStruct field);
          discriminate.
    + intros E. unfold field.
      rewrite (slotFieldInfo_named Hinj field_name k ty VOID E). reflexivity.
Qed.

Lemma toObject_omits_undefined_witness :
  table_get (toObject Examples.opaque_pointers Examples.undefined_reader
                      Examples.empty_schema) "gone" = None
  /\ (List.length (toObject Examples.opaque_pointers Examples.undefined_reader
                            Examples.empty_schema) < 2)%nat.
Proof.
  destruct (toObject_omits_undefined (tags := schema_capnp_tags)
              Examples.opaque_pointers Examples.undefined_reader
              Examples.empty_schema schema_capnp_tags_injective)
    as [Homit _].
  destruct (Homit "gone" eq_refl) as (Hnone & _ & Hlen).
  split; [exact Hnone|]. apply Hlen. left. reflexivity.
Defined.


(* ================================================================== *)
(** * Further properties of the registry *)
(* ================================================================== *)

Section TablesMore.
Context {V : Type}.
Implicit Types (t : Table V) (k key : string).

Lemma table_update_fresh t k f :
  ~ In k (table_keys t) -> table_update t k f = t ++ [(k, f None)].
Proof.
  induction t as [|[k0 v] rest IH]; simpl; intros Hn; [reflexivity|].
  destruct (String.eqb_spec k0 k) as [->|Hk]; [tauto|].
  rewrite IH by tauto. reflexivity.
Qed.

Lemma find_app_first (p : V -> bool) (l1 l2 : list V) :
  find p (l1 ++ l2) =
    match find p l1 with Some x => Some x | None => find p l2 end.
Proof.
  induction l1 as [|x l1 IH]; simpl; [reflexivity|].
  destruct (p x); [reflexivity|exact IH].
Qed.

(** Where no stored value passes a test, a value that passes it is the
    one found after it is written, whichever place it takes. *)
Lemma find_values_set (p : V -> bool) t k v :
  (forall x, In x (table_values t) -> p x = false) ->
  p v = true ->
  find p (table_values (table_set t k v)) = Some v.
Proof.
  unfold table_set, table_values.
  induction t as [|[k0 v0] rest IH]; simpl; intros Hnone Hv.
  - now rewrite Hv.
  - destruct (String.eqb k0 k); simpl.
    + now rewrite Hv.
    + rewrite (Hnone v0) by now left. apply IH; [|exact Hv].
      intros x Hx. apply Hnone. now right.
Qed.

End TablesMore.

Section RegistryMore.
Context {tags : TypeTags}.

Lemma schema_of_shape node this :
  loadDynamic node this =
    match schema_of node with
    | Some schema =>
        (Ok schema,
         {| schemas := table_set (schemas this)
                         (bigint_toString (Node_id node)) schema |})
    | None =>
        (Throw (NotAStructError (extractDisplayName (Node_displayName node))
                                (Node_id node)), this)
    end.
Proof.
  rewrite loadDynamic_shape. unfold schema_of.
  destruct (Node_isStruct node) eqn:Hs.
  - destruct (loadDynamic_struct_result node Hs) as (schema & -> & _). reflexivity.
  - now rewrite (loadDynamic_other_result node Hs).
Qed.

Lemma schema_of_struct node :
  Node_isStruct node = true ->
  exists schema, schema_of node = Some schema /\ id schema = Node_id node.
Proof.
  intros Hs. destruct (loadDynamic_struct_result node Hs) as (schema & E & Hid).
  exists schema. unfold schema_of. now rewrite E.
Qed.

Lemma schema_of_other node : Node_isStruct node = false -> schema_of node = None.
Proof.
  intros Hs. unfold schema_of. now rewrite (loadDynamic_other_result node Hs).
Qed.

(** What a load does to the entry of any id. *)
Lemma lookup_loadDynamic node this i :
  table_get (schemas (snd (loadDynamic node this))) (bigint_toString i) =
    if Node_isStruct node && (Node_id node =? i) then schema_of node
    else table_get (schemas this) (bigint_toString i).
Proof.
  rewrite schema_of_shape. destruct (Node_isStruct node) eqn:Hs.
  - destruct (schema_of_struct node Hs) as (schema & -> & _).
    cbn [snd schemas andb]. now rewrite table_get_set, bigint_toString_eqb.
  - now rewrite (schema_of_other node Hs).
Qed.

End RegistryMore.

(** X1: a load does not disturb the other ids: for every id other than
    the node's, [get] answers after the load as it did before, whether the
    load returned or threw. *)
Theorem loadDynamic_other_ids_untouched {tags : TypeTags}
    (node : Node) (this : State) (i : Z) :
  Node_id node <> i ->
  fst (get i (snd (loadDynamic node this))) = fst (get i this).
Proof.
  intros Hne. rewrite !get_lookup, lookup_loadDynamic.
  destruct (Z.eqb_spec (Node_id node) i) as [E|_]; [contradiction|].
  rewrite andb_false_r.
  now destruct (table_get (schemas this) (bigint_toString i)).
Qed.

Lemma loadDynamic_other_ids_untouched_witness :
  let this := after_loads (tags := schema_capnp_tags) [Examples.void_node] in
  fst (get 9 (snd (loadDynamic (tags := schema_capnp_tags) Examples.bar_node this)))
    = fst (get 9 this).
Proof.
  apply (loadDynamic_other_ids_untouched (tags := schema_capnp_tags)).
  discriminate.
Defined.

(** X2: loads that throw leave no mark on a sequence of loads: the loader
    after loading a list of nodes is the loader after loading its struct
    nodes alone. *)
Theorem after_loads_skips_non_structs {tags : TypeTags} (nodes : list Node) :
  after_loads nodes = after_loads (filter Node_isStruct nodes).
Proof.
  induction nodes as [|node nodes IH] using rev_ind; [reflexivity|].
  rewrite filter_app. cbn [filter]. rewrite after_loads_snoc, schema_of_shape.
  destruct (Node_isStruct node) eqn:Hs.
  - rewrite after_loads_snoc, schema_of_shape, IH. reflexivity.
  - rewrite (schema_of_other node Hs), app_nil_r. exact IH.
Qed.

(** X3: the last load of an id wins over any history: when a struct node
    is loaded and no later load is of a struct node with the same id, [get]
    with that id returns the schema that loading this node produces,
    whatever was loaded before, between and after. *)
Theorem get_last_load_wins {tags : TypeTags}
    (earlier later : list Node) (node : Node) :
  Node_isStruct node = true ->
  (forall m, In m later -> Node_isStruct m = true -> Node_id m <> Node_id node) ->
  let this := after_loads (earlier ++ node :: later) in
  exists schema,
    schema_of node = Some schema
    /\ get (Node_id node) this = (Ok schema, this).
Proof.
  intros Hs Hlater this.
  destruct (schema_of_struct node Hs) as (schema & E & _).
  exists schema. split; [exact E|]. subst this. rewrite get_lookup.
  assert (Hl : table_get (schemas (after_loads (earlier ++ node :: later)))
                         (bigint_toString (Node_id node)) = Some schema).
  { induction later as [|m later IH] using rev_ind.
    - rewrite after_loads_snoc, lookup_loadDynamic, Hs, Z.eqb_refl. exact E.
    - replace (earlier ++ node :: later ++ [m])
        with ((earlier ++ node :: later) ++ [m])
        by (rewrite <- app_assoc; reflexivity).
      rewrite after_loads_snoc, lookup_loadDynamic.
      assert (Hm : Node_isStruct m && (Node_id m =? Node_id node) = false).
      { destruct (Node_isStruct m) eqn:Hms; [|reflexivity].
        cbn [andb]. apply Z.eqb_neq, Hlater; [|exact Hms].
        apply in_or_app. right. now left. }
      rewrite Hm. apply IH. intros m' Hin. apply Hlater.
      apply in_or_app. now left. }
  now rewrite Hl.
Qed.

Lemma get_last_load_wins_witness :
  let this := after_loads (tags := schema_capnp_tags)
                ([Examples.bar_node] ++ Examples.bar_node'
                   :: [Examples.enum_node; Examples.void_node]) in
  exists schema,
    schema_of (tags := schema_capnp_tags) Examples.bar_node' = Some schema
    /\ get 11259375 this = (Ok schema, this).
Proof.
  apply (get_last_load_wins (tags := schema_capnp_tags)
           [Examples.bar_node] [Examples.enum_node; Examples.void_node]
           Examples.bar_node' eq_refl).
  intros m [<-|[<-|[]]]; discriminate.
Defined.

(** X4: the registry hands out nothing but what a load returned: whenever
    [get] returns a schema after a sequence of loads, one of the loaded
    nodes has that id and loading it produces exactly that schema; the
    schema carries the id asked for, its constructor's [_capnp] repeats its
    display name and size and holds the id in hexadecimal, and its data
    size is a whole number of 8-byte words. *)
Theorem get_returns_a_loaded_schema {tags : TypeTags}
    (nodes : list Node) (i : Z) (schema : LoadedSchema) :
  fst (get i (after_loads nodes)) = Ok schema ->
  (exists node, In node nodes /\ Node_id node = i
                /\ schema_of node = Some schema)
  /\ id schema = i
  /\ capnp_displayName (_capnp (structCtor schema)) = displayName schema
  /\ capnp_size (_capnp (structCtor schema)) = size schema
  /\ capnp_id (_capnp (structCtor schema)) = bigint_toString16 i
  /\ dataByteLength (size schema) mod 8 = 0.
Proof.
  rewrite get_lookup. intros Hget.
  assert (Hl : table_get (schemas (after_loads nodes)) (bigint_toString i)
               = Some schema).
  { destruct (table_get (schemas (after_loads nodes)) (bigint_toString i));
      cbn in Hget; congruence. }
  clear Hget.
  assert (Hnode : exists node, In node nodes /\ Node_id node = i
                               /\ schema_of node = Some schema).
  { induction nodes as [|node nodes IH] using rev_ind; [discriminate Hl|].
    rewrite after_loads_snoc, lookup_loadDynamic in Hl.
    destruct (Node_isStruct node && (Node_id node =? i)) eqn:Hm.
    - apply andb_true_iff in Hm as [_ Hm]. apply Z.eqb_eq in Hm.
      exists node. split; [apply in_or_app; right; now left|]. now split.
    - destruct (IH Hl) as (n & Hin & Hn). exists n.
      split; [apply in_or_app; now left|exact Hn]. }
  split; [exact Hnode|]. destruct Hnode as (node & _ & Hid & Hof).
  revert Hof. unfold schema_of, loadDynamic.
  destruct (Node_which node); try discriminate.
  cbn. intros [= <-]. cbn. subst i. repeat split.
  apply Z.mod_mul. discriminate.
Qed.

Lemma get_returns_a_loaded_schema_witness :
  exists schema,
    fst (get 11259375 (after_loads (tags := schema_capnp_tags)
                         [Examples.bar_node; Examples.void_node])) = Ok schema
    /\ capnp_id (_capnp (structCtor schema)) = "abcdef"
    /\ dataByteLength (size schema) mod 8 = 0.
Proof.
  eexists. split; [cbv; reflexivity|].
  match goal with
  | |- capnp_id (_capnp (structCtor ?s)) = _ /\ _ =>
      destruct (get_returns_a_loaded_schema (tags := schema_capnp_tags)
                  [Examples.bar_node; Examples.void_node] 11259375 s eq_refl)
        as (_ & _ & _ & _ & Hid & Hmod)
  end.
  split; [exact Hid|exact Hmod].
Defined.

(** X5: [getByName] never throws and leaves the loader as it is. After
    any sequence of loads it answers undefined exactly when no stored
    schema has that display name; a schema it returns has exactly that
    display name and is the one [get] returns for its own id. *)
Theorem getByName_sound_complete {tags : TypeTags}
    (nodes : list Node) (display : string) :
  let this := after_loads nodes in
  exists found,
    getByName display this = (Ok found, this)
    /\ (found = None <->
          forall stored, In stored (table_values (schemas this)) ->
                         displayName stored <> display)
    /\ (forall schema, found = Some schema ->
          displayName schema = display
          /\ get (id schema) this = (Ok schema, this)).
Proof.
  intros this.
  set (test := fun schema => String.eqb (displayName schema) display).
  exists (find test (table_values (schemas this))).
  split; [reflexivity|]. split.
  - split.
    + intros Hnone stored Hin E.
      pose proof (find_none _ _ Hnone stored Hin) as Hf.
      unfold test in Hf. rewrite E, String.eqb_refl in Hf. discriminate.
    + intros Hall. destruct (find test (table_values (schemas this))) as [s|] eqn:E;
        [|reflexivity].
      apply find_some in E as [Hin Ht]. unfold test in Ht.
      apply String.eqb_eq in Ht. now destruct (Hall s Hin).
  - intros schema E. apply find_some in E as [Hin Ht]. unfold test in Ht.
    apply String.eqb_eq in Ht. split; [exact Ht|].
    unfold table_values in Hin.
    apply in_map_iff in Hin as ([key s] & Hsnd & Hin). cbn in Hsnd. subst s.
    rewrite get_lookup.
    rewrite (table_get_In (schemas this) (bigint_toString (id schema)) schema).
    + reflexivity.
    + apply after_loads_NoDup.
    + now rewrite <- (after_loads_keyed _ _ _ Hin).
Qed.

(** X6: among schemas of one display name the one registered first is the
    one found: when no stored schema has the name, and then two struct nodes
    with that display name are loaded, the second with an id that is new to
    the loader, [getByName] returns the schema of the first. *)
Theorem getByName_first_loaded_wins {tags : TypeTags}
    (history : list Node) (a b : Node) (display : string) :
  (forall stored, In stored (table_values (schemas (after_loads history))) ->
                  displayName stored <> display) ->
  Node_isStruct a = true ->
  Node_isStruct b = true ->
  extractDisplayName (Node_displayName a) = display ->
  extractDisplayName (Node_displayName b) = display ->
  loaded history (Node_id b) = false ->
  Node_id a <> Node_id b ->
  exists schema,
    schema_of a = Some schema
    /\ fst (getByName display (after_loads (history ++ [a; b]))) = Ok (Some schema).
Proof.
  intros Hfree Ha Hb Hna Hnb Hnew Hne.
  destruct (schema_of_struct a Ha) as (sa & Ea & Hida).
  destruct (schema_of_struct b Hb) as (sb & Eb & Hidb).
  exists sa. split; [exact Ea|].
  assert (Hname : displayName sa = display).
  { revert Ea. unfold schema_of, loadDynamic.
    destruct (Node_which a); try discriminate. cbn. intros [= <-]. exact Hna. }
  replace (history ++ [a; b]) with ((history ++ [a]) ++ [b])
    by now rewrite <- app_assoc.
  rewrite !after_loads_snoc, !schema_of_shape, Ea, Eb. cbn [snd].
  set (t := schemas (after_loads history)) in *.
  assert (Hfresh : ~ In (bigint_toString (Node_id b))
                        (table_keys (table_set t (bigint_toString (Node_id a)) sa))).
  { intros Hin. apply table_get_keys in Hin. apply Hin.
    rewrite table_get_set, bigint_toString_eqb.
    destruct (Z.eqb_spec (Node_id a) (Node_id b)); [contradiction|].
    apply (proj1 (lookup_after_loads history (Node_id b)) Hnew). }
  unfold getByName, bind, schemas_values, ret. cbn [fst schemas].
  unfold table_set at 1. rewrite (table_update_fresh _ _ _ Hfresh).
  unfold table_values. rewrite map_app. fold (table_values (table_set t (bigint_toString (Node_id a)) sa)).
  rewrite find_app_first, find_values_set; [reflexivity| |].
  - intros x Hx. apply String.eqb_neq. now apply Hfree.
  - rewrite Hname. apply String.eqb_refl.
Qed.

Lemma getByName_first_loaded_wins_witness :
  exists schema,
    schema_of (tags := schema_capnp_tags) Examples.bar_node' = Some schema
    /\ fst (getByName "Baz"
              (after_loads (tags := schema_capnp_tags)
                 ([Examples.void_node] ++ [Examples.bar_node'; Examples.baz_node])))
       = Ok (Some schema).
Proof.
  apply (getByName_first_loaded_wins (tags := schema_capnp_tags)
           [Examples.void_node] Examples.bar_node' Examples.baz_node "Baz");
    try reflexivity; try discriminate.
  intros stored [<-|[]]. discriminate.
Defined.

(* ================================================================== *)
(** * Further properties of names, kinds and offsets *)
(* ================================================================== *)

Section DisplayNameMore.

Lemma text_after_final_colon_no_colon s :
  contains_colon (text_after_final_colon s) = false.
Proof.
  induction s as [|c rest IH]; [reflexivity|]. cbn [text_after_final_colon].
  destruct (contains_colon rest) eqn:Hrest; [exact IH|].
  destruct (Ascii.eqb c ":"%char) eqn:Hc; [exact Hrest|].
  cbn [contains_colon]. now rewrite Hc, Hrest.
Qed.

Lemma text_after_final_colon_suffix s :
  exists prefix, s = (prefix ++ text_after_final_colon s)%string.
Proof.
  induction s as [|c rest [prefix IH]]; [now exists EmptyString|].
  cbn [text_after_final_colon].
  destruct (contains_colon rest).
  - exists (String c prefix). cbn. now rewrite <- IH.
  - destruct (Ascii.eqb c ":"%char).
    + now exists (String c EmptyString).
    + now exists EmptyString.
Qed.

End DisplayNameMore.

(** X7: the short name [extractDisplayName] keeps is a suffix of the full
    name; extracting again changes nothing; a full name without colon is
    kept whole; the short name contains a colon only when the full name was
    kept whole; and it is empty only for the empty name. *)
Theorem extractDisplayName_short_name (fullName : string) :
  let short := extractDisplayName fullName in
  extractDisplayName short = short
  /\ (exists prefix, fullName = (prefix ++ short)%string)
  /\ (contains_colon fullName = false -> short = fullName)
  /\ (contains_colon short = true -> short = fullName)
  /\ (short = EmptyString -> fullName = EmptyString).
Proof.
  intros short. subst short. rewrite (extractDisplayName_spec fullName).
  pose proof (text_after_final_colon_no_colon fullName) as Hno.
  destruct (text_after_final_colon fullName) as [|c rest] eqn:E; cbn [is_empty].
  - repeat split; try reflexivity.
    + rewrite extractDisplayName_spec, E. reflexivity.
    + now exists EmptyString.
    + auto.
  - repeat split.
    + rewrite extractDisplayName_spec, (no_colon_text _ Hno). reflexivity.
    + rewrite <- E. apply text_after_final_colon_suffix.
    + intros H. rewrite <- E. now apply no_colon_text.
    + intros H. congruence.
    + discriminate.
Qed.

Section KindsMore.
Context {tags : TypeTags}.

Lemma tag_cases typeWhich :
  (exists w, typeWhich = Type_tag w) \/ unknown_tag typeWhich.
Proof.
  assert (H : forall ws : list WireType,
             (exists w, In w ws /\ typeWhich = Type_tag w)
             \/ (forall w, In w ws -> typeWhich <> Type_tag w)).
  { induction ws as [|w ws [(w' & Hin & E)|IH]].
    - right. intros w [].
    - left. exists w'. split; [now right|exact E].
    - destruct (Z.eq_dec typeWhich (Type_tag w)) as [E|E].
      + left. exists w. split; [now left|exact E].
      + right. intros w' [<-|Hin]; [exact E|now apply IH]. }
  destruct (H all_wire_types) as [(w & _ & E)|Hall].
  - left. now exists w.
  - right. intros w. apply Hall. destruct w; simpl; tauto.
Qed.

Lemma slotFieldInfo_unknown field_name k ty :
  unknown_tag (Type_which ty) ->
  slotFieldInfo field_name {| Slot_offset := k; Slot_type := ty |} =
    {| name := field_name; offset := k; type := "unknown";
       isPointer := false; isPrimitive := false;
       isText := false; isData := false; isList := false; isStruct := false;
       structTypeId := None; listElementType := None |}.
Proof.
  intros Hu. unfold slotFieldInfo, typeToString, isPointerType, isPrimitiveType.
  cbn [Slot_type Slot_offset].
  rewrite !(unknown_tag_eqb (Type_which ty)) by exact Hu. reflexivity.
Qed.

End KindsMore.

(** X8: the kinds of a slot field exclude one another: no field is both
    primitive and pointer; at most one of the text, data, list and struct
    flags is set, and a set one makes the field a pointer field. Its
    descriptor always has a getter, and has a setter exactly when the field
    is primitive or text. A void, enum, interface or any-pointer field gets
    the raw-pointer getter at its wire offset and no setter. *)
Theorem slot_field_kinds {tags : TypeTags} :
  tags_injective tags ->
  forall field_name slot,
    let field := slotFieldInfo field_name slot in
    isPrimitive field && isPointer field = false
    /\ (isText field || isData field || isList field || isStruct field = true ->
          isPointer field = true)
    /\ (Nat.b2n (isText field) + Nat.b2n (isData field)
        + Nat.b2n (isList field) + Nat.b2n (isStruct field) <= 1)%nat
    /\ descriptor_get (fieldDescriptor field) <> None
    /\ is_some (descriptor_set (fieldDescriptor field))
         = isPrimitive field || isText field
    /\ (forall w, In w [VOID; ENUM; INTERFACE; ANY_POINTER] ->
          Type_which (Slot_type slot) = Type_tag w ->
          fieldDescriptor field
            = accessor_descriptor (utils_getPointer (Slot_offset slot)) None).
Proof.
  intros Hinj field_name [k ty] field. subst field.
  destruct (tag_cases (Type_which ty)) as [(w & E)|Hu].
  - rewrite (slotFieldInfo_named Hinj field_name k ty w E).
    repeat split.
    + now destruct w.
    + now destruct w.
    + destruct w; cbn; lia.
    + destruct w; discriminate.
    + now destruct w.
    + cbn [Slot_type Slot_offset]. intros w' Hin E'.
      assert (w' = w) by (apply Hinj; congruence). subst w'.
      destruct Hin as [<-|[<-|[<-|[<-|[]]]]]; reflexivity.
  - rewrite (slotFieldInfo_unknown field_name k ty Hu).
    repeat split; try discriminate; try reflexivity; cbn; lia.
Qed.

Lemma slot_field_kinds_witness :
  fieldDescriptor
    (slotFieldInfo (tags := schema_capnp_tags) "color"
       {| Slot_offset := 2; Slot_type := Examples.type_of 15 |})
  = accessor_descriptor (utils_getPointer 2) None.
Proof.
  destruct (slot_field_kinds (tags := schema_capnp_tags)
              schema_capnp_tags_injective "color"
              {| Slot_offset := 2; Slot_type := Examples.type_of 15 |})
    as (_ & _ & _ & _ & _ & Hfallback).
  apply (Hfallback ENUM); [simpl; tauto|reflexivity].
Defined.

(** X9: [calculateByteOffset] on a slot field of a named wire type: the
    byte that holds the bit for bool, the wire offset times the width for
    the types of the size table, and the wire offset times 8 for every
    other type (void, the pointer types, enum, interface) as for a type
    with an unknown tag, through the [|| 8] default. For a bool at a
    non-negative bit offset the result is the index of the byte the bit
    lies in. *)
Theorem calculateByteOffset_by_type {tags : TypeTags} :
  tags_injective tags ->
  forall field_name k ty,
    let field := slotFieldInfo field_name {| Slot_offset := k; Slot_type := ty |} in
    (forall w, Type_which ty = Type_tag w ->
       calculateByteOffset field = byteOffset_for w k)
    /\ (unknown_tag (Type_which ty) -> calculateByteOffset field = k * 8)
    /\ (Type_which ty = Type_BOOL -> 0 <= k ->
          8 * calculateByteOffset field <= k < 8 * calculateByteOffset field + 8).
Proof.
  intros Hinj field_name k ty field. subst field.
  assert (Hnamed : forall w, Type_which ty = Type_tag w ->
            calculateByteOffset
              (slotFieldInfo field_name {| Slot_offset := k; Slot_type := ty |})
            = byteOffset_for w k).
  { intros w E. rewrite (slotFieldInfo_named Hinj field_name k ty w E).
    destruct w; unfold calculateByteOffset; cbn; try reflexivity; lia. }
  split; [exact Hnamed|split].
  - intros Hu. now rewrite (slotFieldInfo_unknown field_name k ty Hu).
  - intros E Hk. rewrite (Hnamed BOOL E). cbn [byteOffset_for].
    assert (k = 8 * (k / 8) + k mod 8) by (apply Z.div_mod; lia).
    assert (0 <= k mod 8 < 8) by (apply Z.mod_pos_bound; lia). lia.
Qed.

Lemma calculateByteOffset_by_type_witness :
  calculateByteOffset
    (slotFieldInfo (tags := schema_capnp_tags) "flag"
       {| Slot_offset := 19; Slot_type := Examples.type_of 1 |}) = 2
  /\ calculateByteOffset
       (slotFieldInfo (tags := schema_capnp_tags) "label"
          {| Slot_offset := 3; Slot_type := Examples.type_of 12 |}) = 24.
Proof.
  split.
  - exact (proj1 (calculateByteOffset_by_type (tags := schema_capnp_tags)
                    schema_capnp_tags_injective "flag" 19 (Examples.type_of 1))
                 BOOL eq_refl).
  - exact (proj1 (calculateByteOffset_by_type (tags := schema_capnp_tags)
                    schema_capnp_tags_injective "label" 3 (Examples.type_of 12))
                 TEXT eq_refl).
Defined.

(* ================================================================== *)
(** * Further properties of the synthesized struct type *)
(* ================================================================== *)

Section PrototypeMore.

Lemma enumerable_keys_in_table (P : Prototype) key :
  In key (enumerable_keys P) -> In key (table_keys P).
Proof.
  unfold enumerable_keys, table_keys. intros H.
  apply in_map_iff in H as (kv & E & Hin). apply filter_In in Hin as [Hin _].
  apply in_map_iff. now exists kv.
Qed.

Lemma enumerable_keys_NoDup (P : Prototype) :
  NoDup (table_keys P) -> NoDup (enumerable_keys P).
Proof.
  induction P as [|[k v] rest IH]; [constructor|].
  unfold enumerable_keys, table_keys in *. cbn [map filter fst snd]. intros Hnd.
  apply NoDup_cons_iff in Hnd as [Hnotin Hnd].
  destruct (property_enumerable v); cbn [map fst]; [|now apply IH].
  constructor; [|now apply IH].
  intros Hin. apply Hnotin. now apply (enumerable_keys_in_table rest).
Qed.

Lemma enumerable_keys_define (P : Prototype) key d x :
  descriptor_enumerable d = true ->
  In x (enumerable_keys (defineProperty P key d))
  <-> x = key \/ In x (enumerable_keys P).
Proof.
  intros He. unfold defineProperty, enumerable_keys, table_keys.
  induction P as [|[k v] rest IH]; cbn [table_update filter map fst snd].
  - rewrite He. cbn. intuition congruence.
  - destruct (String.eqb_spec k key) as [->|Hk]; cbn [filter map fst snd].
    + assert (Hen : property_enumerable
                      match v with
                      | DataProperty _ _ =>
                          AccessorProperty (descriptor_get d) (descriptor_set d)
                                           (descriptor_enumerable d)
                      | AccessorProperty g s _ =>
                          AccessorProperty (or_keep (descriptor_get d) g)
                                           (or_keep (descriptor_set d) s)
                                           (descriptor_enumerable d)
                      end = true) by (destruct v; exact He).
      rewrite Hen. destruct (property_enumerable v); cbn [map fst In];
        intuition congruence.
    + destruct (property_enumerable v); cbn [map fst In]; rewrite IH; tauto.
Qed.

Lemma Object_keys_NoDup (P : Prototype) :
  NoDup (table_keys P) -> NoDup (Object_keys P).
Proof.
  intros H. apply own_key_order_NoDup, enumerable_keys_NoDup, H.
Qed.

Lemma Object_keys_define (P : Prototype) key d x :
  descriptor_enumerable d = true ->
  In x (Object_keys (defineProperty P key d)) <-> x = key \/ In x (Object_keys P).
Proof.
  intros He. unfold Object_keys.
  rewrite !own_key_order_In. now apply enumerable_keys_define.
Qed.

Lemma fold_addFieldAccessors_snoc fields field P :
  fold_left addFieldAccessors (fields ++ [field]) P
    = addFieldAccessors (fold_left addFieldAccessors fields P) field.
Proof. now rewrite fold_left_app. Qed.

Lemma fold_addFieldAccessors_NoDup fields P :
  NoDup (table_keys P) ->
  NoDup (table_keys (fold_left addFieldAccessors fields P)).
Proof.
  revert P. induction fields as [|f fields IH]; intros P H; [exact H|].
  cbn [fold_left]. apply IH. now apply table_update_NoDup.
Qed.

Lemma DynamicStruct_prototype_NoDup : NoDup (table_keys DynamicStruct_prototype).
Proof.
  repeat constructor; simpl; intuition discriminate.
Qed.

Lemma DynamicStruct_prototype_no_accessor key g s e :
  table_get DynamicStruct_prototype key <> Some (AccessorProperty g s e).
Proof.
  unfold DynamicStruct_prototype. cbn [table_get].
  destruct (String.eqb "constructor" key); [discriminate|].
  destruct (String.eqb "toString" key); discriminate.
Qed.

Lemma fieldDescriptor_has_getter field :
  exists g, descriptor_get (fieldDescriptor field) = Some g.
Proof.
  unfold fieldDescriptor.
  destruct (isPrimitive field), (isText field), (isData field),
    (isList field), (isStruct field); eexists; reflexivity.
Qed.

Lemma fold_addFieldAccessors_distinct fields :
  NoDup (map name fields) ->
  (forall f, In f fields -> class_member (name f) = false) ->
  fold_left addFieldAccessors fields DynamicStruct_prototype
    = DynamicStruct_prototype ++ map own_entry fields.
Proof.
  induction fields as [|f fields IH] using rev_ind; intros Hnd Hcm.
  - now rewrite app_nil_r.
  - rewrite map_app in Hnd. cbn [map] in Hnd.
    apply NoDup_remove in Hnd as [Hnd Hnotin]. rewrite app_nil_r in Hnd, Hnotin.
    rewrite fold_addFieldAccessors_snoc, IH; [|exact Hnd|];
      [|intros g Hg; apply Hcm, in_or_app; now left].
    unfold addFieldAccessors, defineProperty.
    rewrite table_update_fresh.
    + rewrite fieldDescriptor_enumerable, map_app, app_assoc. reflexivity.
    + unfold table_keys. rewrite map_app, map_map. cbn [own_entry fst].
      intros Hin. apply in_app_or in Hin as [Hin|Hin]; [|contradiction].
      assert (Hf : In f (fields ++ [f])) by (apply in_or_app; right; now left).
      specialize (Hcm f Hf).
      unfold class_member in Hcm. apply orb_false_iff in Hcm as [H1 H2].
      apply String.eqb_neq in H1, H2. cbn in Hin.
      destruct Hin as [E|[E|[]]]; congruence.
Qed.

Lemma Object_keys_distinct fields :
  NoDup (map name fields) ->
  (forall f, In f fields -> class_member (name f) = false) ->
  Object_keys (fold_left addFieldAccessors fields DynamicStruct_prototype)
    = own_key_order (map name fields).
Proof.
  intros Hnd Hcm. rewrite (fold_addFieldAccessors_distinct fields Hnd Hcm).
  unfold Object_keys. f_equal.
  unfold enumerable_keys, table_keys. rewrite filter_app, map_app.
  cbn [DynamicStruct_prototype filter property_enumerable snd map app].
  clear. induction fields as [|f fields IH]; [reflexivity|].
  cbn. f_equal. exact IH.
Qed.

Lemma table_get_addFieldAccessors (P : Prototype) field key :
  table_get (addFieldAccessors P field) key =
    if String.eqb (name field) key
    then Some match table_get P (name field) with
              | Some (AccessorProperty g s _) =>
                  AccessorProperty
                    (or_keep (descriptor_get (fieldDescriptor field)) g)
                    (or_keep (descriptor_set (fieldDescriptor field)) s) true
              | _ =>
                  AccessorProperty (descriptor_get (fieldDescriptor field))
                                   (descriptor_set (fieldDescriptor field)) true
              end
    else table_get P key.
Proof.
  unfold addFieldAccessors, defineProperty.
  now rewrite table_get_update, fieldDescriptor_enumerable.
Qed.

End PrototypeMore.

(** X10: the enumerable keys of the struct type [createDynamicStruct]
    builds are the names of the given fields, each once: every field name
    is a key, every key is a field name, and no key repeats, however the
    names repeat in the field list. *)
Theorem createDynamicStruct_keys (i displayName : string) (size : ObjectSize)
    (fields : list FieldInfo) :
  let P := prototype (createDynamicStruct i displayName size fields) in
  NoDup (Object_keys P)
  /\ forall key, In key (Object_keys P) <-> In key (map name fields).
Proof.
  cbn [createDynamicStruct prototype]. split.
  - apply Object_keys_NoDup, fold_addFieldAccessors_NoDup,
      DynamicStruct_prototype_NoDup.
  - induction fields as [|f fields IH] using rev_ind; intros key.
    + cbn. tauto.
    + rewrite fold_addFieldAccessors_snoc. unfold addFieldAccessors.
      rewrite Object_keys_define by apply fieldDescriptor_enumerable.
      rewrite IH, map_app, in_app_iff. cbn [map In]. intuition congruence.
Qed.

(** X11: with repeated field names the accessor of a name is put together
    from several fields: its getter is that of the last field of the name,
    its setter that of the last field of the name whose descriptor has one
    (so a getter-only field declared after a text or primitive field of the
    same name leaves the earlier setter in place), and it is enumerable. A
    name no field carries keeps what the class body put there. *)
Theorem createDynamicStruct_accessor (i displayName : string) (size : ObjectSize)
    (fields : list FieldInfo) (key : string) :
  table_get (prototype (createDynamicStruct i displayName size fields)) key =
    match last_named key fields with
    | None => table_get DynamicStruct_prototype key
    | Some last =>
        Some (AccessorProperty
                (descriptor_get (fieldDescriptor last))
                (match last_setter_named key fields with
                 | Some setting => descriptor_set (fieldDescriptor setting)
                 | None => None
                 end)
                true)
    end.
Proof.
  cbn [createDynamicStruct prototype]. unfold last_named, last_setter_named.
  induction fields as [|f fields IH] using rev_ind; [reflexivity|].
  rewrite fold_addFieldAccessors_snoc, rev_app_distr. cbn [rev app find].
  rewrite table_get_addFieldAccessors.
  destruct (String.eqb_spec (name f) key) as [E|E]; cbn [andb]; [|exact IH].
  rewrite E, IH.
  destruct (fieldDescriptor_has_getter f) as (g & Hg). rewrite Hg.
  destruct (find (fun f0 => String.eqb (name f0) key) (rev fields)) as [last|] eqn:Hlast.
  - cbn [or_keep].
    destruct (descriptor_set (fieldDescriptor f)) eqn:Hs; cbn; rewrite ?Hs; reflexivity.
  - assert (Hnone : find (fun f0 => String.eqb (name f0) key
                                    && is_some (descriptor_set (fieldDescriptor f0)))
                         (rev fields) = None).
    { destruct (find (fun f0 => String.eqb (name f0) key
                                && is_some (descriptor_set (fieldDescriptor f0)))
                     (rev fields)) as [x|] eqn:Hx; [|reflexivity].
      apply find_some in Hx as [Hin Hx]. apply andb_true_iff in Hx as [Hx _].
      pose proof (find_none _ _ Hlast x Hin) as Hf. cbn in Hf. congruence. }
    rewrite Hnone.
    destruct (table_get DynamicStruct_prototype key) as [[v e|g' s' e]|] eqn:Hp.
    + destruct (descriptor_set (fieldDescriptor f)) eqn:Hs; cbn; rewrite ?Hs;
        reflexivity.
    + now destruct (DynamicStruct_prototype_no_accessor key g' s' e).
    + destruct (descriptor_set (fieldDescriptor f)) eqn:Hs; cbn; rewrite ?Hs;
        reflexivity.
Qed.

(** X12: with distinct field names, none of them "constructor" or
    "toString", the struct type enumerates its fields with the names that
    are array indices first, in ascending numeric order, and the other
    names after them in the order given; when no name is an array index
    that is the order given. Each field's accessor is exactly the getter
    and setter of its own descriptor. *)
Theorem createDynamicStruct_distinct_names (i displayName : string)
    (size : ObjectSize) (fields : list FieldInfo) :
  NoDup (map name fields) ->
  (forall f, In f fields -> class_member (name f) = false) ->
  let P := prototype (createDynamicStruct i displayName size fields) in
  Object_keys P = own_key_order (map name fields)
  /\ ((forall f, In f fields -> is_array_index (name f) = false) ->
        Object_keys P = map name fields)
  /\ forall f, In f fields ->
       table_get P (name f) =
         Some (AccessorProperty (descriptor_get (fieldDescriptor f))
                                (descriptor_set (fieldDescriptor f)) true).
Proof.
  intros Hnd Hcm. cbn [createDynamicStruct prototype].
  split; [now apply Object_keys_distinct|]. split.
  - intros Hplain. rewrite (Object_keys_distinct fields Hnd Hcm).
    apply own_key_order_plain. intros key Hin.
    apply in_map_iff in Hin as (f & <- & Hf). now apply Hplain.
  - intros f Hin. apply table_get_In.
    + apply fold_addFieldAccessors_NoDup, DynamicStruct_prototype_NoDup.
    + rewrite (fold_addFieldAccessors_distinct fields Hnd Hcm).
      apply in_or_app. right. apply (in_map own_entry), Hin.
Qed.

Lemma createDynamicStruct_distinct_names_witness :
  Object_keys
    (prototype
       (createDynamicStruct "1" "S" {| dataByteLength := 8; pointerLength := 2 |}
          (parseFields (tags := schema_capnp_tags)
             [Examples.slot_field "b" 0 12; Examples.slot_field "1" 0 4;
              Examples.slot_field "a" 1 13; Examples.slot_field "0" 1 4])))
  = ["0"; "1"; "b"; "a"].
Proof.
  refine (eq_trans
            (proj1 (createDynamicStruct_distinct_names "1" "S"
                      {| dataByteLength := 8; pointerLength := 2 |}
                      (parseFields (tags := schema_capnp_tags)
                         [Examples.slot_field "b" 0 12; Examples.slot_field "1" 0 4;
                          Examples.slot_field "a" 1 13; Examples.slot_field "0" 1 4])
                      _ _))
            eq_refl).
  - repeat constructor; simpl; intuition discriminate.
  - intros f [<-|[<-|[<-|[<-|[]]]]]; reflexivity.
Defined.

(* ================================================================== *)
(** * Further properties of the projection *)
(* ================================================================== *)

Section ProjectionMore.
Context {Heap : Type} (utils : External Heap) (struct : Struct Heap).




End ProjectionMore.






(* ================================================================== *)
(** * Further properties of primitive accessors *)
(* ================================================================== *)

Section WireMore.
Import Wire.

Lemma getUint_setInt width byteOffset v data :
  0 <= v < 2 ^ (8 * Z.of_nat width) ->
  checkDataBounds byteOffset (Z.of_nat width) data = true ->
  exists data',
    setInt width byteOffset v data = Ok data'
    /\ getUint width byteOffset data' = Ok v.
Proof.
  intros Hv Hb. unfold setInt, getUint. rewrite Hb.
  eexists. split; [reflexivity|].
  unfold checkDataBounds in *. apply andb_true_iff in Hb as [H0 H1].
  apply Z.leb_le in H0, H1.
  set (bytes := le_encode width (v mod 2 ^ (8 * Z.of_nat width))).
  assert (Hlen : List.length bytes = width) by apply le_encode_length.
  rewrite splice_length by (rewrite ?Hlen; lia).
  replace (0 <=? byteOffset) with true by (symmetry; now apply Z.leb_le).
  replace (byteOffset + Z.of_nat width <=? Z.of_nat (List.length data)) with true
    by (symmetry; now apply Z.leb_le).
  cbn [andb]. f_equal.
  assert (Hs : slice byteOffset width (splice byteOffset bytes data) = bytes).
  { rewrite <- Hlen. apply slice_splice; rewrite ?Hlen; lia. }
  rewrite Hs. unfold bytes. rewrite le_decode_encode.
  replace (256 ^ Z.of_nat width) with (2 ^ (8 * Z.of_nat width))
    by (rewrite Z.pow_mul_r by lia; reflexivity).
  rewrite Z.mod_mod by (apply Z.pow_nonzero; lia).
  now apply Z.mod_small.
Qed.

Lemma getBit_setBit bitOffset value data :
  checkDataBounds (bitOffset / 8) 1 data = true ->
  exists data',
    setBit bitOffset value data = Ok data'
    /\ getBit bitOffset data' = Ok value.
Proof.
  intros Hb. unfold setBit, getBit. rewrite Hb.
  eexists. split; [reflexivity|].
  unfold checkDataBounds in *. apply andb_true_iff in Hb as [H0 H1].
  apply Z.leb_le in H0, H1.
  rewrite splice_length by (cbn [List.length]; lia).
  replace (0 <=? bitOffset / 8) with true by (symmetry; now apply Z.leb_le).
  replace (bitOffset / 8 + 1 <=? Z.of_nat (List.length data)) with true
    by (symmetry; now apply Z.leb_le).
  cbn [andb]. f_equal. unfold splice.
  assert (Hlen : List.length (firstn (Z.to_nat (bitOffset / 8)) data)
                 = Z.to_nat (bitOffset / 8))
    by (rewrite length_firstn; lia).
  rewrite app_nth2 by lia. rewrite Hlen, Nat.sub_diag. cbn [app nth].
  assert (0 <= bitOffset mod 8 < 8) by (apply Z.mod_pos_bound; lia).
  destruct value.
  - apply Z.setbit_eq. lia.
  - apply Z.clearbit_eq.
Qed.

End WireMore.

Section StoreLoad.
Context {Heap : Type} (this : View Heap).

Lemma store_load_signed width off v :
  (0 < width)%nat ->
  - 2 ^ (8 * Z.of_nat width - 1) <= v < 2 ^ (8 * Z.of_nat width - 1) ->
  Wire.checkDataBounds off (Z.of_nat width) (data this) = true ->
  exists this',
    rmap (with_data this) (Wire.setInt width off v (data this)) = Ok this'
    /\ Wire.getInt width off (data this') = Ok v.
Proof.
  intros Hw Hv Hb.
  destruct (getInt_setInt width off v (data this) Hw Hv Hb) as (d' & Hs & Hg & _).
  exists (with_data this d'). rewrite Hs. split; [reflexivity|exact Hg].
Qed.

Lemma store_load_unsigned width off v :
  0 <= v < 2 ^ (8 * Z.of_nat width) ->
  Wire.checkDataBounds off (Z.of_nat width) (data this) = true ->
  exists this',
    rmap (with_data this) (Wire.setInt width off v (data this)) = Ok this'
    /\ Wire.getUint width off (data this') = Ok v.
Proof.
  intros Hv Hb.
  destruct (getUint_setInt width off v (data this) Hv Hb) as (d' & Hs & Hg).
  exists (with_data this d'). rewrite Hs. split; [reflexivity|exact Hg].
Qed.

End StoreLoad.

(** X15: with the wire layer as modelled, every integer field and every
    bool field reads back what was written through it: the getter and the
    setter the loader synthesizes for an int8, int16, int32, int64, uint8,
    uint16, uint32 or uint64 field return a value of the type's range
    unchanged (a bigint for the 64-bit types), and those of a bool field
    return the bit written, when the position lies inside the data
    section. *)
Theorem primitive_field_round_trip {tags : TypeTags} :
  tags_injective tags ->
  forall field_name k ty (Heap : Type) (utils : External Heap) (this : View Heap),
    let field := slotFieldInfo field_name {| Slot_offset := k; Slot_type := ty |} in
    (forall w v,
       is_integer w = true ->
       Type_which ty = Type_tag w ->
       in_range w v ->
       Wire.checkDataBounds (k * byte_width w) (byte_width w) (data this) = true ->
       exists g s this',
         descriptor_get (fieldDescriptor field) = Some g
         /\ descriptor_set (fieldDescriptor field) = Some s
         /\ run_setter utils s (js_integer w v) this = Ok this'
         /\ run_getter utils g this' = Ok (js_integer w v))
    /\ (forall b,
          Type_which ty = Type_BOOL ->
          Wire.checkDataBounds (k / 8) 1 (data this) = true ->
          exists g s this',
            descriptor_get (fieldDescriptor field) = Some g
            /\ descriptor_set (fieldDescriptor field) = Some s
            /\ run_setter utils s (VBool b) this = Ok this'
            /\ run_getter utils g this' = Ok (VBool b)).
Proof.
  intros Hinj field_name k ty Heap utils this field. subst field. split.
  - intros w v Hw E Hv Hb.
    rewrite (slotFieldInfo_named Hinj field_name k ty w E).
    exists (reader w (position w k)), (writer w (position w k)).
    destruct w; try discriminate Hw;
      cbn [in_range byte_width position reader writer js_integer] in *.
    + destruct (store_load_signed this 1 (k * 1) v) as (this' & Hs & Hg);
        [lia|cbn; lia|exact Hb|].
      exists this'. repeat split; [exact Hs|]. cbn. now rewrite Hg.
    + destruct (store_load_signed this 2 (k * 2) v) as (this' & Hs & Hg);
        [lia|cbn; lia|exact Hb|].
      exists this'. repeat split; [exact Hs|]. cbn. now rewrite Hg.
    + destruct (store_load_signed this 4 (k * 4) v) as (this' & Hs & Hg);
        [lia|cbn; lia|exact Hb|].
      exists this'. repeat split; [exact Hs|]. cbn. now rewrite Hg.
    + destruct (store_load_signed this 8 (k * 8) v) as (this' & Hs & Hg);
        [lia|cbn; lia|exact Hb|].
      exists this'. repeat split; [exact Hs|]. cbn. now rewrite Hg.
    + destruct (store_load_unsigned this 1 (k * 1) v) as (this' & Hs & Hg);
        [cbn; lia|exact Hb|].
      exists this'. repeat split; [exact Hs|]. cbn. now rewrite Hg.
    + destruct (store_load_unsigned this 2 (k * 2) v) as (this' & Hs & Hg);
        [cbn; lia|exact Hb|].
      exists this'. repeat split; [exact Hs|]. cbn. now rewrite Hg.
    + destruct (store_load_unsigned this 4 (k * 4) v) as (this' & Hs & Hg);
        [cbn; lia|exact Hb|].
      exists this'. repeat split; [exact Hs|]. cbn. now rewrite Hg.
    + destruct (store_load_unsigned this 8 (k * 8) v) as (this' & Hs & Hg);
        [cbn; lia|exact Hb|].
      exists this'. repeat split; [exact Hs|]. cbn. now rewrite Hg.
  - intros b E Hb.
    rewrite (slotFieldInfo_named Hinj field_name k ty BOOL E).
    destruct (getBit_setBit k b (data this) Hb) as (d' & Hs & Hg).
    exists (utils_getBit k), (utils_setBit k), (with_data this d').
    repeat split; cbn [run_setter run_getter].
    + now rewrite Hs.
    + cbn [with_data data]. now rewrite Hg.
Qed.

Lemma primitive_field_round_trip_witness :
  (exists g s this',
     descriptor_get
       (fieldDescriptor
          (slotFieldInfo (tags := schema_capnp_tags) "big"
             {| Slot_offset := 1; Slot_type := Examples.type_of 9 |})) = Some g
     /\ descriptor_set
          (fieldDescriptor
             (slotFieldInfo (tags := schema_capnp_tags) "big"
                {| Slot_offset := 1; Slot_type := Examples.type_of 9 |})) = Some s
     /\ run_setter Examples.opaque_pointers s (VBigInt (2 ^ 64 - 1))
                   (Examples.zeroed 16) = Ok this'
     /\ run_getter Examples.opaque_pointers g this' = Ok (VBigInt (2 ^ 64 - 1)))
  /\ (exists g s this',
        descriptor_get
          (fieldDescriptor
             (slotFieldInfo (tags := schema_capnp_tags) "on"
                {| Slot_offset := 11; Slot_type := Examples.type_of 1 |})) = Some g
        /\ descriptor_set
             (fieldDescriptor
                (slotFieldInfo (tags := schema_capnp_tags) "on"
                   {| Slot_offset := 11; Slot_type := Examples.type_of 1 |})) = Some s
        /\ run_setter Examples.opaque_pointers s (VBool true)
                      (Examples.zeroed 16) = Ok this'
        /\ run_getter Examples.opaque_pointers g this' = Ok (VBool true)).
Proof.
  split.
  - refine (proj1 (primitive_field_round_trip (tags := schema_capnp_tags)
                     schema_capnp_tags_injective "big" 1 (Examples.type_of 9)
                     unit Examples.opaque_pointers (Examples.zeroed 16))
                  UINT64 (2 ^ 64 - 1) eq_refl eq_refl _ eq_refl).
    cbn. lia.
  - exact (proj2 (primitive_field_round_trip (tags := schema_capnp_tags)
                    schema_capnp_tags_injective "on" 11 (Examples.type_of 1)
                    unit Examples.opaque_pointers (Examples.zeroed 16))
                 true eq_refl eq_refl).
Defined.

Lemma typeToString_unknown {tags : TypeTags} typeWhich :
  unknown_tag typeWhich -> typeToString typeWhich = "unknown".
Proof.
  intros Hu. unfold typeToString.
  now rewrite !(unknown_tag_eqb typeWhich) by exact Hu.
Qed.

Lemma label_injective w1 w2 : label w1 = label w2 -> w1 = w2.
Proof. destruct w1; destruct w2; intros H; (reflexivity || discriminate H). Qed.

Lemma label_not_unknown w : label w <> "unknown".
Proof. destruct w; discriminate. Qed.

(** X16: the label tells the wire type: two tags get the same label from
    [typeToString] only when they are the same tag or when neither is a
    named wire type (both are then "unknown"). *)
Theorem typeToString_separates_tags {tags : TypeTags} :
  tags_injective tags ->
  forall t1 t2,
    typeToString t1 = typeToString t2 ->
    t1 = t2 \/ (unknown_tag t1 /\ unknown_tag t2).
Proof.
  intros Hinj t1 t2 H.
  destruct (tag_cases t1) as [(w1 & ->)|Hu1];
    destruct (tag_cases t2) as [(w2 & ->)|Hu2].
  - left. f_equal. apply label_injective.
    now rewrite <- (proj1 (classify_named Hinj w1)), <- (proj1 (classify_named Hinj w2)).
  - rewrite (proj1 (classify_named Hinj w1)), (typeToString_unknown t2 Hu2) in H.
    now destruct (label_not_unknown w1).
  - rewrite (proj1 (classify_named Hinj w2)), (typeToString_unknown t1 Hu1) in H.
    symmetry in H. now destruct (label_not_unknown w2).
  - right. now split.
Qed.

Lemma typeToString_separates_tags_witness :
  99 = 100
  \/ (unknown_tag (tags := schema_capnp_tags) 99
      /\ unknown_tag (tags := schema_capnp_tags) 100).
Proof.
  exact (typeToString_separates_tags (tags := schema_capnp_tags)
           schema_capnp_tags_injective 99 100 eq_refl).
Defined.

